(** * Phoneme analysis toolbox: a shallow embedding of [text/phoneme_analysis.py]

    The development follows the Python module top-down:
    - Python strings as lists of code points, with the tables of the
      interpreter ([str.lower], the classes [\w], [\s], [\d] of [re]) kept
      abstract in a record;
    - [Passage.__clean_text], [Passage.__to_phonemes] (with the module-level
      [phoneme_cache]), [Passage.__get_phoneme_stats], [Passage.__check_counts],
      [Passage.__read_input_text] and [Passage.__init__];
    - [Corpus.__find_oovs] and [Corpus.export_oovs];
    - [Corpus.__load_passages] and [Corpus.__init__], over a file system
      given by its operations. *)

From Stdlib Require Import String Ascii.
From stdpp Require Import gmap list sorting.

Local Open Scope nat_scope.

(** ** Python strings *)

(** A Python [str] is a sequence of Unicode code points. *)
Abbreviation str := (list N).

(** A string literal of the source, as code points (ASCII literals only). *)
Definition lit (s : string) : str := N_of_ascii <$> list_ascii_of_string s.

Definition LF : N := 10.          (* '\n' *)
Definition SPACE : N := 32.       (* ' '  *)
Definition APOSTROPHE : N := 39.  (* "'"  *)
Definition SLASH : N := 47.       (* '/'  *)
Definition RSQUO : N := 8217.     (* U+2019, right single quotation mark *)

(** The character tables of the interpreter.  [isspace] is the predicate
    behind both the class [\s] of [re] and [str.strip()]; [isword] is the
    class [\w]; [isdigit] the class [\d]. *)
Record Unicode := {
  str_lower : str → str;
  isspace : N → bool;
  isword : N → bool;
  isdigit : N → bool;
}.

(** What the proofs below use of these tables.  Lowercasing yields code
    points that lowercasing leaves alone, a string of such code points is
    its own lowercase, and the blank and the apostrophe are among them; the
    blank is whitespace. *)
Record UnicodeLaws (U : Unicode) : Prop := {
  lower_fixed : ∀ s c, c ∈ str_lower U s → str_lower U [c] = [c];
  lower_id : ∀ s, (∀ c, c ∈ s → str_lower U [c] = [c]) → str_lower U s = s;
  lower_SPACE : str_lower U [SPACE] = [SPACE];
  lower_APOSTROPHE : str_lower U [APOSTROPHE] = [APOSTROPHE];
  isspace_SPACE : isspace U SPACE = true;
}.

(** The tables restricted to code points below 128 (every other code point
    is lowercase, and in no class). *)
Module AsciiRange.
Definition between (lo hi c : N) : bool := ((lo <=? c) && (c <=? hi))%N.
Definition lower_char (c : N) : N := if between 65 90 c then (c + 32)%N else c.
Definition tables : Unicode := {|
  str_lower s := lower_char <$> s;
  isspace c := between 9 13 c || between 28 32 c;
  isword c := between 48 57 c || between 65 90 c || between 97 122 c || (c =? 95)%N;
  isdigit c := between 48 57 c;
|}.
End AsciiRange.

(** [s.replace(a, b)] for one-character [a] and [b]. *)
Definition replace_char (a b : N) (s : str) : str :=
  (λ c, if decide (c = a) then b else c) <$> s.

Section text.
Context (U : Unicode).

(** The characters that [re.sub(r"[^\w\s']", '', s)] keeps. *)
Definition kept (c : N) : bool :=
  isword U c || isspace U c || bool_decide (c = APOSTROPHE).

(** [re.sub(r'\s+', ' ', s)]: every maximal run of whitespace becomes one
    blank.  [in_run] tells that the previous character was whitespace. *)
Fixpoint sub_ws (in_run : bool) (s : str) : str :=
  match s with
  | [] => []
  | c :: s' =>
      if isspace U c
      then (if in_run then sub_ws true s' else SPACE :: sub_ws true s')
      else c :: sub_ws false s'
  end.

(** [s.strip()], as [rstrip] after [lstrip]. *)
Fixpoint lstrip (s : str) : str :=
  match s with
  | [] => []
  | c :: s' => if isspace U c then lstrip s' else s
  end.

Fixpoint rstrip (s : str) : str :=
  match s with
  | [] => []
  | c :: s' =>
      match rstrip s' with
      | [] => if isspace U c then [] else [c]
      | r => c :: r
      end
  end.

Definition strip (s : str) : str := rstrip (lstrip s).

(** [Passage.__clean_text], on the text it rewrites. *)
Definition clean_text (text : str) : str :=
  let text := replace_char LF SPACE (str_lower U text) in
  let text := replace_char RSQUO APOSTROPHE text in
  let text := List.filter kept text in
  strip (sub_ws false text).
End text.


(** ** The transcriber: [Passage.__to_phonemes] and the module's cache *)

(** [s.split(sep)] for a one-character separator: an empty string gives one
    empty token, and two separators in a row give an empty token between
    them. *)
Fixpoint split (sep : N) (s : str) : list str :=
  match s with
  | [] => [[]]
  | c :: s' =>
      if decide (c = sep) then [] :: split sep s'
      else match split sep s' with
           | w :: ws => (c :: w) :: ws
           | [] => [[c]]
           end
  end.

(** The state of the module: the dictionary [phoneme_cache], and the words
    for which [cmudict.dict()[word]] was evaluated so far, in order (the
    second is instrumentation, the source keeps no such log). *)
Record globals := Globals {
  phoneme_cache : gmap str (list str);
  cmudict_calls : list str;
}.

Definition fresh_globals : globals := Globals ∅ [].

(** What the loop of [__to_phonemes] carries: the module's state, the
    passage's [self.oovs] and the local [phon_transcript]. *)
Record transcriber := Transcriber {
  tr_globals : globals;
  tr_oovs : list str;
  tr_transcript : list (str * list str);
}.

Section transcriber.
(** [cmudict.dict()], a [defaultdict(list)]: every word has a list of
    variants, the empty list when the dictionary does not know it. *)
Context (cmudict : str → list (list str)).

(** The body of the loop [for word in words]. *)
Definition to_phonemes_word (st : transcriber) (word : str) : transcriber :=
  let g := tr_globals st in
  match phoneme_cache g !! word with
  | Some phonemes =>
      Transcriber g (tr_oovs st) (tr_transcript st ++ [(word, phonemes)])
  | None =>
      match cmudict word with
      | phonemes :: _ =>
          Transcriber
            (Globals (<[word := phonemes]> (phoneme_cache g)) (cmudict_calls g ++ [word]))
            (tr_oovs st)
            (tr_transcript st ++ [(word, phonemes)])
      | [] =>
          Transcriber
            (Globals (<[word := []]> (phoneme_cache g)) (cmudict_calls g ++ [word]))
            (tr_oovs st ++ [word])
            (tr_transcript st ++ [(word, [])])
      end
  end.

(** [Passage.__to_phonemes], from the cleaned text, the module's state and
    the passage's [self.oovs]. *)
Definition to_phonemes (text : str) (g : globals) (oovs : list str) : transcriber :=
  let words := split SPACE text in
  foldl to_phonemes_word (Transcriber g oovs []) words.

(** The module's state after the texts of several passages went through
    [__to_phonemes], one after the other. *)
Definition transcribe_all (texts : list str) (g : globals) : globals :=
  foldl (λ g text, tr_globals (to_phonemes text g [])) g texts.
End transcriber.

(** ** The counter: [Passage.__get_phoneme_stats] *)

(** [dict(sorted(d.items()))]: the items go into a new dictionary in the
    order of their keys (keys are distinct, so values are never compared).
    Strings compare code point by code point. *)
Fixpoint str_leb (a b : str) : bool :=
  match a, b with
  | [], _ => true
  | _ :: _, [] => false
  | x :: a', y :: b' => (x <? y)%N || ((x =? y)%N && str_leb a' b')
  end.

Definition sorted_items {V} (d : gmap str V) : list (str * V) :=
  merge_sort (λ a b, Is_true (str_leb a.1 b.1)) (map_to_list d).

Definition dict_sorted {V} (d : gmap str V) : gmap str V :=
  list_to_map (sorted_items d).

Section counter.
Context (U : Unicode) (ignore_stress : bool).

(** [re.sub(r'\d$', '', p)]: [$] is the end of the string, or the place
    before a newline that ends the string. *)
Definition strip_stress (p : str) : str :=
  match reverse p with
  | [] => p
  | c :: r =>
      let last := if isdigit U c then [] else [c] in
      if decide (c = LF) then
        match r with
        | d :: r' => if isdigit U d then reverse r' ++ last else reverse r ++ last
        | [] => last
        end
      else reverse r ++ last
  end.

(** The position of index [i] in a word of [n_ph] phonemes: 0 initial,
    1 medial, 2 final (computed by the source only when [n_ph >= 2]). *)
Definition pos_idx (n_ph i : nat) : nat :=
  if bool_decide (0 < i) then
    if bool_decide (i = n_ph - 1) then 2 else 1
  else 0.

(** The body of the loop [for i, p in enumerate(phonemes)].  When the
    source indexes [phoneme_count_by_pos[p][pos_idx]], the key [p] has just
    been given an entry and [pos_idx] is below the length 3 of every entry
    (lemmas [pos_idx_lt] and [tallies_get_phoneme_stats]), so the update is
    always in range. *)
Definition count_phoneme (n_ph i : nat) (p : str)
    (acc : gmap str nat * gmap str (list nat)) : gmap str nat * gmap str (list nat) :=
  let '(phoneme_count, phoneme_count_by_pos) := acc in
  let p := if ignore_stress then strip_stress p else p in
  let phoneme_count :=
    match phoneme_count !! p with
    | Some c => <[p := c + 1]> phoneme_count
    | None => <[p := 1]> phoneme_count
    end in
  let phoneme_count_by_pos :=
    match phoneme_count_by_pos !! p with
    | Some _ => phoneme_count_by_pos
    | None => <[p := [0; 0; 0]]> phoneme_count_by_pos
    end in
  let phoneme_count_by_pos :=
    if bool_decide (2 ≤ n_ph)
    then alter (alter S (pos_idx n_ph i)) p phoneme_count_by_pos
    else phoneme_count_by_pos in
  (phoneme_count, phoneme_count_by_pos).

(** The inner loop, from index [i] on. *)
Fixpoint count_phonemes (n_ph i : nat) (phonemes : list str)
    (acc : gmap str nat * gmap str (list nat)) : gmap str nat * gmap str (list nat) :=
  match phonemes with
  | [] => acc
  | p :: phonemes' => count_phonemes n_ph (S i) phonemes' (count_phoneme n_ph i p acc)
  end.

(** The outer loop [for _, phonemes in self.phon_trans]. *)
Definition count_transcript (phon_trans : list (str * list str))
    (acc : gmap str nat * gmap str (list nat)) : gmap str nat * gmap str (list nat) :=
  foldl (λ acc wp, count_phonemes (length wp.2) 0 wp.2 acc) acc phon_trans.

(** [Passage.__get_phoneme_stats]. *)
Definition get_phoneme_stats (phon_trans : list (str * list str))
    : gmap str nat * gmap str (list nat) :=
  let '(phoneme_count, phoneme_count_by_pos) := count_transcript phon_trans (∅, ∅) in
  (dict_sorted phoneme_count, dict_sorted phoneme_count_by_pos).
End counter.

(** ** Validation: [Passage.__check_counts] *)

Inductive exn := ValueError | KeyError.

Inductive result (A : Type) :=
  | Returned (a : A)
  | Raised (e : exn).
Arguments Returned {A} a.
Arguments Raised {A} e.

(** The list comprehension [checks]: [None] when [phoneme_count_by_pos[k]]
    misses a key. *)
Definition checks (phoneme_count : gmap str nat)
    (phoneme_count_by_pos : gmap str (list nat)) : option (list bool) :=
  mapM (λ kc : str * nat,
          (λ v, bool_decide (sum_list v ≤ kc.2)) <$> phoneme_count_by_pos !! kc.1)
       (map_to_list phoneme_count).

Definition check_counts (phoneme_count : gmap str nat)
    (phoneme_count_by_pos : gmap str (list nat)) : result unit :=
  match checks phoneme_count phoneme_count_by_pos with
  | None => Raised KeyError
  | Some cs => if forallb id cs then Returned () else Raised ValueError
  end.

(** ** [Passage] *)

(** The files of the file system that [os.path.isfile] accepts, with their
    decoded content. *)
Abbreviation filesystem := (gmap str str).

(** [os.path.basename] (POSIX): what follows the last slash. *)
Definition basename (p : str) : str :=
  default [] (last (split SLASH p)).

(** [Passage.__read_input_text]: the new [self.name] and [self.text]. *)
Definition read_input_text (fs : filesystem) (name : option str) (input_data : str)
    : option str * str :=
  match fs !! input_data with
  | Some text =>
      (match name with None => Some (basename input_data) | Some _ => name end, text)
  | None => (name, input_data)
  end.

Record Passage := {
  name : option str;
  oovs : list str;
  ignore_stress : bool;
  text : str;
  phon_trans : list (str * list str);
  phoneme_count : gmap str nat;
  phoneme_count_by_pos : gmap str (list nat);
  n_phonemes : nat;
  n_unique_phonemes : nat;
  n_words : nat;
}.

Section passage.
Context (U : Unicode) (cmudict : str → list (list str)) (fs : filesystem).

(** [Passage.__init__]: the passage, or the exception that leaves the
    constructor, and the module's state afterwards. *)
Definition Passage__init__ (text : str) (name : option str) (ignore_stress : bool)
    (g : globals) : result Passage * globals :=
  let '(name, text) := read_input_text fs name text in
  let text := clean_text U text in
  let tr := to_phonemes cmudict text g [] in
  let '(phoneme_count, phoneme_count_by_pos) :=
    get_phoneme_stats U ignore_stress (tr_transcript tr) in
  match check_counts phoneme_count phoneme_count_by_pos with
  | Raised e => (Raised e, tr_globals tr)
  | Returned _ =>
      (Returned {|
         name := name;
         oovs := tr_oovs tr;
         ignore_stress := ignore_stress;
         text := text;
         phon_trans := tr_transcript tr;
         phoneme_count := phoneme_count;
         phoneme_count_by_pos := phoneme_count_by_pos;
         n_phonemes := sum_list (map_to_list phoneme_count).*2;
         n_unique_phonemes := size phoneme_count;
         n_words := length (tr_transcript tr);
       |}, tr_globals tr)
  end.
End passage.

(** ** [Corpus] *)

Record Corpus := {
  directory : str;
  passages : list Passage;
  corpus_oovs : list str;   (* [self.oovs] of the corpus *)
}.

(** [list(set(l))]: the elements of [l], each once, in the order in which
    the interpreter goes through the set.  That order comes from the hashes
    of the strings and is not fixed by the source, so it is a parameter;
    all that is known of it is that the list has the elements of [l] and no
    duplicates. *)
Record SetOrder := {
  list_of_set : list str → list str;
  list_of_set_NoDup : ∀ l, NoDup (list_of_set l);
  list_of_set_elem : ∀ l x, x ∈ list_of_set l ↔ x ∈ l;
}.

(** [Corpus.__find_oovs]: [list(set([oov for P in passages for oov in P.oovs()]))]. *)
Definition find_oovs (O : SetOrder) (passages : list Passage) : list str :=
  list_of_set O (P ← passages; oovs P).

(** One such order, for the examples. *)
Definition elements_order : SetOrder := {|
  list_of_set l := elements (list_to_set (C := gset str) l);
  list_of_set_NoDup l := NoDup_elements _;
  list_of_set_elem l x := ltac:(rewrite elem_of_elements; apply elem_of_list_to_set);
|}.

(** [sep.join(l)]. *)
Fixpoint join (sep : str) (l : list str) : str :=
  match l with
  | [] => []
  | [w] => w
  | w :: l' => w ++ sep ++ join sep l'
  end.

(** What [export_oovs] acts on: the files, and the lines printed. *)
Record os_state := OS {
  files : filesystem;
  stdout : list str;
}.

(** [Corpus.export_oovs]; [open(outpath, 'w')] creates the file or replaces
    its content. *)
Definition export_oovs (self : Corpus) (outpath : option str) (os : os_state) : os_state :=
  if bool_decide (0 < length (corpus_oovs self)) then
    let outpath :=
      match outpath with
      | None => directory self ++ lit "/oovs.txt"
      | Some p => p
      end in
    OS (<[outpath := join [LF] (corpus_oovs self)]> (files os)) (stdout os)
  else
    OS (files os) (stdout os ++ [lit "No OOV words in the corpus."]).

(** ** A stub dictionary, for the examples *)

Definition stub_cmudict (word : str) : list (list str) :=
  if decide (word = lit "the") then [[lit "DH"; lit "AH0"]; [lit "DH"; lit "AH1"]; [lit "DH"; lit "IY0"]]
  else if decide (word = lit "cat") then [[lit "K"; lit "AE1"; lit "T"]]
  else if decide (word = lit "sat") then [[lit "S"; lit "AE1"; lit "T"]]
  else if decide (word = lit "a") then [[lit "AH0"]; [lit "EY1"]]
  else [].

(** ** Predicates and reference definitions used in the statements *)

Section text_predicates.
Context (U : Unicode).

(** A string in which whitespace occurs only as single blanks; [b] tells
    that a whitespace character comes just before the string. *)
Fixpoint spaced (b : bool) (s : str) : Prop :=
  match s with
  | [] => True
  | c :: s' =>
      if isspace U c then c = SPACE ∧ b = false ∧ spaced true s'
      else spaced false s'
  end.

(** A string that does not start with whitespace. *)
Definition no_lead (s : str) : Prop :=
  match s with
  | [] => True
  | c :: _ => isspace U c = false
  end.

(** The code points of a cleaned text. *)
Definition clean_char (c : N) : Prop :=
  (str_lower U [c] = [c] ∧ c ≠ LF ∧ c ≠ RSQUO) ∧ kept U c = true.

(** What [__clean_text] leaves behind, and what it leaves alone. *)
Definition cleaned (s : str) : Prop :=
  Forall clean_char s ∧ spaced false s ∧ no_lead s ∧ rstrip U s = s.
End text_predicates.

(** The first variant of an answer of the dictionary, empty when there is
    none: what the cache holds for a word after its first look-up. *)
Definition first_variant (variants : list (list str)) : list str :=
  match variants with
  | phonemes :: _ => phonemes
  | [] => []
  end.

(** The positions of the specification, and the bucket of each in the
    count vector [[initial, medial, final]]. *)
Inductive position := Initial | Medial | Final.

Global Instance position_eq_dec : EqDecision position.
Proof. solve_decision. Defined.

Definition bucket (pos : position) : nat :=
  match pos with Initial => 0 | Medial => 1 | Final => 2 end.

(** The rule of the specification for index [i] of a variant of length
    [n]: no position when [n] is 0 or 1; otherwise index 0 is initial, index
    [n - 1] is final, and every other index is medial. *)
Definition spec_position (n i : nat) : option position :=
  if bool_decide (n = 0 ∨ n = 1) then None
  else if bool_decide (i = 0) then Some Initial
  else if bool_decide (i = n - 1) then Some Final
  else Some Medial.

(** The symbol that is counted for a phoneme [p]. *)
Definition counted_symbol (U : Unicode) (ignore_stress : bool) (p : str) : str :=
  if ignore_stress then strip_stress U p else p.

(** The occurrences of a variant, those of its indices [i], [i + 1], ...
    when [phonemes] is what is left of it from index [i] on. *)
Definition occurrences_from (U : Unicode) (ignore_stress : bool) (n i : nat)
    (phonemes : list str) : list (str * option position) :=
  imap (λ j p, (counted_symbol U ignore_stress p, spec_position n (i + j))) phonemes.

(** The symbol occurrences of a transcription, each with its position. *)
Definition occurrences (U : Unicode) (ignore_stress : bool)
    (phon_trans : list (str * list str)) : list (str * option position) :=
  wp ← phon_trans; occurrences_from U ignore_stress (length wp.2) 0 wp.2.

(** How often symbol [k] occurs, and how often at position [pos]. *)
Definition occ_total (k : str) (occs : list (str * option position)) : nat :=
  length (filter (λ o, o.1 = k) occs).

Definition occ_at (pos : position) (k : str) (occs : list (str * option position)) : nat :=
  length (filter (λ o, o = (k, Some pos)) occs).

(** The count vector after one more occurrence. *)
Definition bump (pos : option position) (v : list nat) : list nat :=
  match pos with
  | Some pos => alter S (bucket pos) v
  | None => v
  end.

(** The two dictionaries of the counter hold the tallies of [occs]: a
    symbol that occurs has its total and its vector of positional counts,
    a symbol that does not occur has no entry. *)
Definition tallies (occs : list (str * option position))
    (acc : gmap str nat * gmap str (list nat)) : Prop :=
  ∀ k : str,
    acc.1 !! k =
      (if decide (occ_total k occs = 0) then None else Some (occ_total k occs)) ∧
    acc.2 !! k =
      (if decide (occ_total k occs = 0) then None
       else Some [occ_at Initial k occs; occ_at Medial k occs; occ_at Final k occs]).

(** The module's state after the words [words] were looked up one after
    the other, as the loop of [__to_phonemes] does (part of a passage, or
    the words of several). *)
Definition lookups (cmudict : str → list (list str)) (words : list str) (g : globals)
    : globals :=
  tr_globals (foldl (to_phonemes_word cmudict) (Transcriber g [] []) words).

(** Every word that was looked up in the dictionary is in the cache, and
    none was looked up twice. *)
Definition calls_cached (g : globals) : Prop :=
  NoDup (cmudict_calls g) ∧
  ∀ w, w ∈ cmudict_calls g → is_Some (phoneme_cache g !! w).

(** Every entry of the cache is what the dictionary answers for its word:
    its first variant, or the empty sequence. *)
Definition cache_sound (cmudict : str → list (list str)) (g : globals) : Prop :=
  ∀ w v, phoneme_cache g !! w = Some v → v = first_variant (cmudict w).

(** The state of the loop of [__to_phonemes] after the words [ws], when it
    started from the module's state [g] with [oovs0] in [self.oovs]: the
    cache has the old entries and one for each word of [ws]; the new OOV
    words are the words of [ws] that were not in the cache and that the
    dictionary does not know, each once; the new queries are the words of
    [ws] that were not in the cache, each once; the transcript pairs the
    words of [ws], in order, with their entries of the cache. *)
Definition transcribed (cmudict : str → list (list str)) (g : globals)
    (oovs0 : list str) (ws : list str) (st : transcriber) : Prop :=
  (∀ w, phoneme_cache (tr_globals st) !! w =
        match phoneme_cache g !! w with
        | Some v => Some v
        | None => if decide (w ∈ ws) then Some (first_variant (cmudict w)) else None
        end) ∧
  (∃ new, tr_oovs st = oovs0 ++ new ∧ NoDup new ∧
          ∀ w, w ∈ new ↔ w ∈ ws ∧ phoneme_cache g !! w = None ∧ cmudict w = []) ∧
  (∃ new, cmudict_calls (tr_globals st) = cmudict_calls g ++ new ∧ NoDup new ∧
          ∀ w, w ∈ new ↔ w ∈ ws ∧ phoneme_cache g !! w = None) ∧
  (tr_transcript st).*1 = ws ∧
  (∀ w ph, (w, ph) ∈ tr_transcript st → phoneme_cache (tr_globals st) !! w = Some ph).

(** The phonemes of a transcription, in order. *)
Definition phonemes_of (phon_trans : list (str * list str)) : list str :=
  wp ← phon_trans; wp.2.

(** The sum over all symbols of the counts at one position. *)
Definition position_total (pos : position) (pbp : gmap str (list nat)) : nat :=
  sum_list ((λ kv : str * list nat, default 0 (kv.2 !! bucket pos)) <$> map_to_list pbp).

(** [os.path.join(a, b)] (POSIX). *)
Definition os_path_join (a b : str) : str :=
  if bool_decide (head b = Some SLASH) then b
  else if bool_decide (a = [] ∨ last a = Some SLASH) then a ++ b
  else a ++ [SLASH] ++ b.

(** ** [Corpus.__init__] and [Corpus.__load_passages] *)

(** [s.endswith(suffix)]. *)
Definition endswith (suffix s : str) : bool := bool_decide (suffix `suffix_of` s).

(** [s.replace(old, new)]: the occurrences of [old] are replaced from left
    to right, without overlap ([skip] counts the characters of a match that
    are still to be passed); an empty [old] matches before every character
    and at the end. *)
Fixpoint replace_from (old new : str) (skip : nat) (s : str) : str :=
  match s with
  | [] => []
  | c :: s' =>
      match skip with
      | S k => replace_from old new k s'
      | 0 =>
          if bool_decide (old `prefix_of` s)
          then new ++ replace_from old new (length old - 1) s'
          else c :: replace_from old new 0 s'
      end
  end.

Definition str_replace (old new s : str) : str :=
  match old with
  | [] => new ++ (c ← s; c :: new)
  | _ :: _ => replace_from old new 0 s
  end.

(** The file system as [Corpus] uses it, one operation for each call of the
    source; [W] is the state of the file system.  [text_files] gives the
    files that [Passage] sees ([os.path.isfile], [open] and [read]).  The
    operations are total: a run in which a call of the operating system
    fails is not described. *)
Class FileSystem (W : Type) := {
  os_path_exists : str → W → bool;
  os_makedirs : str → W → W;
  os_listdir : str → W → list str;
  text_files : W → filesystem;
  pickle_load : str → W → Passage;
  pickle_dump : Passage → str → W → W;
}.

Section corpus.
Context {W : Type} `{!FileSystem W}.
Context (U : Unicode) (cmudict : str → list (list str)).

(** The name of the cache file of a text file. *)
Definition cache_name (filename : str) : str :=
  str_replace (lit ".txt") (lit ".pkl") filename.

(** The body of the first loop of [__load_passages]: the passages loaded
    from the cache, the paths of the files that are to be analyzed, and
    the lines printed. *)
Definition sort_file (directory cache_dir : str) (load_from_cache : bool) (w : W)
    (acc : list Passage * list str * list str) (filename : str)
    : list Passage * list str * list str :=
  let '(passages, new_files, out) := acc in
  let filepath := os_path_join directory filename in
  let cache_filepath := os_path_join cache_dir (cache_name filename) in
  if load_from_cache && os_path_exists cache_filepath w then
    let passage := pickle_load cache_filepath w in
    (passages ++ [passage], new_files,
     out ++ [lit "Loading passage data for " ++ filename ++ lit " from cached..."])
  else (passages, new_files ++ [filepath], out).

(** The body of the second loop: a passage is constructed from the path
    and, when [cache] is set, written to its cache file.  An exception of
    the constructor ends the loop. *)
Definition analyze_file (cache_dir : str) (ignore_stress cache : bool)
    (acc : result (list Passage) * W * globals) (filepath : str)
    : result (list Passage) * W * globals :=
  let '(r, w, g) := acc in
  match r with
  | Raised e => acc
  | Returned passages =>
      match Passage__init__ U cmudict (text_files w) filepath None ignore_stress g with
      | (Raised e, g') => (Raised e, w, g')
      | (Returned passage, g') =>
          let cache_filepath := os_path_join cache_dir (cache_name (basename filepath)) in
          (Returned (passages ++ [passage]),
           if cache then pickle_dump passage cache_filepath w else w,
           g')
      end
  end.

(** The passages that the second loop constructs from the paths [files],
    one after the other: each is what the constructor returns for its path,
    without a name, on the text files of the file system and in the state of
    the module that the constructions before it have left; when [cache] is
    set the passage is written to its cache file before the next one is
    constructed.  [w'] and [g'] are the file system and the state of the
    module after the last one. *)
Fixpoint constructed_in_turn (cache_dir : str) (ign cache : bool) (w : W) (g : globals)
    (files : list str) (fresh : list Passage) (w' : W) (g' : globals) : Prop :=
  match files, fresh with
  | [], [] => w' = w ∧ g' = g
  | filepath :: files, P :: fresh =>
      ∃ g1,
        Passage__init__ U cmudict (text_files w) filepath None ign g = (Returned P, g1) ∧
        constructed_in_turn cache_dir ign cache
          (if cache
           then pickle_dump P (os_path_join cache_dir (cache_name (basename filepath))) w
           else w)
          g1 files fresh w' g'
  | _, _ => False
  end.

(** [Corpus.__load_passages]: the passages or the exception, and the file
    system, the lines printed and the module's state afterwards.  (The
    progress bar of [tqdm] is left out.) *)
Definition load_passages (directory : str) (ignore_stress cache load_from_cache : bool)
    (w : W) (out : list str) (g : globals)
    : result (list Passage) * W * list str * globals :=
  let cache_dir := os_path_join directory (lit "cached") in
  let w := if os_path_exists cache_dir w then w else os_makedirs cache_dir w in
  let txt_files := List.filter (endswith (lit ".txt")) (os_listdir directory w) in
  let '(passages, new_files, out) :=
    foldl (sort_file directory cache_dir load_from_cache w) ([], [], out) txt_files in
  let '(r, w, g) :=
    foldl (analyze_file cache_dir ignore_stress cache) (Returned passages, w, g) new_files in
  (r, w, out, g).

(** [Corpus.__init__]; of the attributes of the corpus, the record keeps
    the directory, the passages and the OOV words. *)
Definition Corpus__init__ (O : SetOrder) (directory : str)
    (ignore_stress cache load_from_cache : bool)
    (w : W) (out : list str) (g : globals)
    : result Corpus * W * list str * globals :=
  let '(r, w, out, g) :=
    load_passages directory ignore_stress cache load_from_cache w out g in
  match r with
  | Raised e => (Raised e, w, out, g)
  | Returned passages =>
      (Returned {| directory := directory; passages := passages;
                   corpus_oovs := find_oovs O passages |}, w, out, g)
  end.
End corpus.

(** Names for the statements: the cache directory of a corpus, the file
    system once [__load_passages] has seen to the cache directory, the
    [.txt] files it lists, and the cache file of a text file. *)
Definition cache_dir_of (directory : str) : str := os_path_join directory (lit "cached").

Definition with_cache_dir {W : Type} `{!FileSystem W} (directory : str) (w : W) : W :=
  if os_path_exists (cache_dir_of directory) w then w
  else os_makedirs (cache_dir_of directory) w.

Definition txt_files {W : Type} `{!FileSystem W} (directory : str) (w : W) : list str :=
  List.filter (endswith (lit ".txt")) (os_listdir directory w).

Definition cache_path (directory filename : str) : str :=
  os_path_join (cache_dir_of directory) (cache_name filename).

Definition loading_line (filename : str) : str :=
  lit "Loading passage data for " ++ filename ++ lit " from cached...".

(** What the round trip through the cache files uses of the file system,
    for the corpus in [directory] and the cache files [paths] of its text
    files, which lie in the cache directory.  The laws speak of these paths
    only, and of writing to one of them while the cache directory exists:
    the file written exists afterwards and holds the passage written; the
    cache directory and the cache files that existed still do, and the
    other cache files hold what they held; the listing of [directory] is
    the same.  The cache directory exists once it was made. *)
Record CacheLaws {W : Type} `{!FileSystem W} (directory : str) (paths : list str) : Prop := {
  dump_exists : ∀ P p (w : W),
    p ∈ paths → os_path_exists (cache_dir_of directory) w = true →
    os_path_exists p (pickle_dump P p w) = true;
  dump_keeps : ∀ P p q (w : W),
    p ∈ paths → q ∈ cache_dir_of directory :: paths →
    os_path_exists (cache_dir_of directory) w = true →
    os_path_exists q w = true → os_path_exists q (pickle_dump P p w) = true;
  dump_load : ∀ P p (w : W),
    p ∈ paths → os_path_exists (cache_dir_of directory) w = true →
    pickle_load p (pickle_dump P p w) = P;
  dump_load_other : ∀ P p q (w : W),
    p ∈ paths → q ∈ paths → p ≠ q →
    os_path_exists (cache_dir_of directory) w = true →
    os_path_exists q w = true →
    pickle_load q (pickle_dump P p w) = pickle_load q w;
  dump_listdir : ∀ P p (w : W),
    p ∈ paths → os_path_exists (cache_dir_of directory) w = true →
    os_listdir directory (pickle_dump P p w) = os_listdir directory w;
  makedirs_exists : ∀ (w : W),
    os_path_exists (cache_dir_of directory) (os_makedirs (cache_dir_of directory) w) = true;
}.

(** A small file system for the examples: text files, cache files, the
    directories, and the names that [os.listdir] gives (for the one
    directory of the examples). *)
Record toy_disk := ToyDisk {
  toy_texts : filesystem;
  toy_pickles : gmap str Passage;
  toy_dirs : list str;
  toy_listing : list str;
}.

Definition toy_passage : Passage := {|
  name := None; oovs := []; ignore_stress := true; text := [];
  phon_trans := []; phoneme_count := ∅; phoneme_count_by_pos := ∅;
  n_phonemes := 0; n_unique_phonemes := 0; n_words := 0;
|}.

Global Instance toy_file_system : FileSystem toy_disk := {|
  os_path_exists p w :=
    bool_decide (is_Some (toy_texts w !! p) ∨ is_Some (toy_pickles w !! p) ∨ p ∈ toy_dirs w);
  os_makedirs p w := ToyDisk (toy_texts w) (toy_pickles w) (toy_dirs w ++ [p]) (toy_listing w);
  os_listdir d w := toy_listing w;
  text_files w := toy_texts w;
  pickle_load p w := default toy_passage (toy_pickles w !! p);
  pickle_dump P p w :=
    ToyDisk (toy_texts w) (<[p := P]> (toy_pickles w)) (toy_dirs w) (toy_listing w);
|}.

(** A directory with two text files and a file that is not one, before any
    cache file was written, and the same with a cache file for each text
    file. *)
Definition toy_corpus : toy_disk := {|
  toy_texts := {[ lit "corpus/a.txt" := lit "The cat sat."; lit "corpus/b.txt" := lit "xyzzy a cat" ]};
  toy_pickles := ∅;
  toy_dirs := [lit "corpus"];
  toy_listing := [lit "a.txt"; lit "notes.md"; lit "b.txt"];
|}.

Definition toy_cached_corpus : toy_disk := {|
  toy_texts := toy_texts toy_corpus;
  toy_pickles := {[ lit "corpus/cached/a.pkl" := toy_passage;
                    lit "corpus/cached/b.pkl" := toy_passage ]};
  toy_dirs := [lit "corpus"; lit "corpus/cached"];
  toy_listing := toy_listing toy_corpus;
|}.

(** * Properties *)

Example clean_text_scenario :
  clean_text AsciiRange.tables (lit "The cat sat.") = lit "the cat sat".
Proof. reflexivity. Qed.

(** ** The text normalizer *)

Section text_facts.
Context (U : Unicode).

Lemma sub_ws_spaced b s : isspace U SPACE = true → spaced U b (sub_ws U b s).
Proof.
  intros HS. revert b. induction s as [|c s IH]; intros b; simpl; [done|].
  destruct (isspace U c) eqn:Hc.
  - destruct b; [apply IH|]. simpl. rewrite HS. auto.
  - simpl. rewrite Hc. apply IH.
Qed.

Lemma spaced_sub_ws b s : spaced U b s → sub_ws U b s = s.
Proof.
  revert b. induction s as [|c s IH]; intros b; simpl; [done|].
  destruct (isspace U c).
  - intros (-> & -> & Hs). by rewrite (IH true Hs).
  - intros Hs. by rewrite (IH false Hs).
Qed.

Lemma spaced_true_false s : spaced U true s → spaced U false s.
Proof.
  destruct s as [|c s]; simpl; [done|].
  destruct (isspace U c); [|done]. by intros (_ & ? & _).
Qed.

Lemma lstrip_no_lead s : no_lead U (lstrip U s).
Proof.
  induction s as [|c s IH]; simpl; [done|].
  destruct (isspace U c) eqn:Hc; [done|]. simpl. by rewrite Hc.
Qed.

Lemma no_lead_lstrip s : no_lead U s → lstrip U s = s.
Proof. destruct s as [|c s]; simpl; [done|]. by intros ->. Qed.

Lemma spaced_lstrip b s : spaced U b s → spaced U false (lstrip U s).
Proof.
  revert b. induction s as [|c s IH]; intros b; simpl; [done|].
  destruct (isspace U c) eqn:Hc.
  - intros (_ & _ & Hs). by apply (IH true).
  - intros Hs. simpl. by rewrite Hc.
Qed.

Lemma spaced_rstrip b s : spaced U b s → spaced U b (rstrip U s).
Proof.
  revert b. induction s as [|c s IH]; intros b; simpl; [done|].
  destruct (isspace U c) eqn:Hc.
  - intros (-> & -> & Hs). apply IH in Hs.
    destruct (rstrip U s) as [|x r]; [done|]. simpl. by rewrite Hc.
  - intros Hs. apply IH in Hs.
    destruct (rstrip U s) as [|x r]; simpl; by rewrite Hc.
Qed.

Lemma rstrip_idemp s : rstrip U (rstrip U s) = rstrip U s.
Proof.
  induction s as [|c s IH]; simpl; [done|].
  destruct (rstrip U s) as [|x r] eqn:Hr.
  - destruct (isspace U c) eqn:Hc; simpl; [done|]. by rewrite Hc.
  - change (rstrip U (c :: x :: r)) with
      (match rstrip U (x :: r) with
       | [] => if isspace U c then [] else [c]
       | y :: r' => c :: y :: r'
       end).
    by rewrite IH.
Qed.

Lemma no_lead_rstrip s : no_lead U s → no_lead U (rstrip U s).
Proof.
  destruct s as [|c s]; simpl; [done|]. intros Hc.
  destruct (rstrip U s); simpl; by rewrite ?Hc.
Qed.

Lemma Forall_sub_ws (P : N → Prop) b s :
  P SPACE → Forall P s → Forall P (sub_ws U b s).
Proof.
  intros HS Hs. revert b. induction Hs as [|c s Hc Hs IH]; intros b; simpl; [done|].
  destruct (isspace U c); [destruct b|]; auto.
Qed.

Lemma Forall_lstrip (P : N → Prop) s : Forall P s → Forall P (lstrip U s).
Proof.
  induction 1 as [|c s Hc Hs IH]; simpl; [done|].
  destruct (isspace U c); auto.
Qed.

Lemma Forall_rstrip (P : N → Prop) s : Forall P s → Forall P (rstrip U s).
Proof.
  induction 1 as [|c s Hc Hs IH]; simpl; [done|].
  destruct (rstrip U s); [destruct (isspace U c)|]; auto.
Qed.

Lemma replace_char_absent a b s : a ∉ s → replace_char a b s = s.
Proof.
  unfold replace_char. induction s as [|c s IH]; [done|].
  intros Hn. apply not_elem_of_cons in Hn as [Hc Hs].
  rewrite fmap_cons, decide_False by done. by rewrite IH.
Qed.

Lemma Forall_replace_char (P : N → Prop) a b s :
  P b → Forall P s → Forall P (replace_char a b s).
Proof.
  intros Hb Hs. unfold replace_char. apply Forall_fmap.
  eapply Forall_impl; [exact Hs|]. intros c Hc. simpl. by case_decide.
Qed.

Lemma replace_char_gone a b s : a ≠ b → Forall (λ c, c ≠ a) (replace_char a b s).
Proof.
  intros Hab. unfold replace_char. apply Forall_fmap, Forall_forall.
  intros c _. simpl. case_decide; congruence.
Qed.

Lemma filter_all (f : N → bool) s : Forall (λ c, f c = true) s → List.filter f s = s.
Proof. induction 1 as [|c s Hc Hs IH]; simpl; [done|]. by rewrite Hc, IH. Qed.

Lemma Forall_filter_kept (P : N → Prop) s :
  Forall P s → Forall (λ c, P c ∧ kept U c = true) (List.filter (kept U) s).
Proof.
  induction 1 as [|c s Hc Hs IH]; simpl; [done|].
  destruct (kept U c) eqn:Hk; auto.
Qed.

Context (HU : UnicodeLaws U).

Lemma kept_SPACE : kept U SPACE = true.
Proof. unfold kept. rewrite (isspace_SPACE U HU). by rewrite orb_true_r. Qed.

Lemma clean_text_cleaned x : cleaned U (clean_text U x).
Proof.
  unfold clean_text, strip, cleaned.
  set (s3 := List.filter _ _).
  assert (Forall (clean_char U) s3) as H3.
  { apply Forall_filter_kept.
    apply Forall_and; split; [|apply Forall_and; split].
    - apply Forall_replace_char; [apply (lower_APOSTROPHE U HU)|].
      apply Forall_replace_char; [apply (lower_SPACE U HU)|].
      apply Forall_forall. intros c Hc. by apply (lower_fixed U HU x).
    - apply Forall_replace_char; [done|]. by apply replace_char_gone.
    - by apply replace_char_gone. }
  assert (clean_char U SPACE) as HS.
  { split; [|apply kept_SPACE]. split; [apply (lower_SPACE U HU)|done]. }
  split_and!.
  - by apply Forall_rstrip, Forall_lstrip, Forall_sub_ws.
  - apply spaced_rstrip, (spaced_lstrip false), sub_ws_spaced, (isspace_SPACE U HU).
  - apply no_lead_rstrip, lstrip_no_lead.
  - apply rstrip_idemp.
Qed.

Lemma cleaned_clean_text y : cleaned U y → clean_text U y = y.
Proof.
  intros (Hc & Hsp & Hl & Hr). unfold clean_text, strip.
  rewrite (lower_id U HU y).
  2:{ intros c Hin. rewrite Forall_forall in Hc. by destruct (Hc c Hin) as [[? _] _]. }
  rewrite (replace_char_absent LF).
  2:{ intros Hin. rewrite Forall_forall in Hc. by destruct (Hc _ Hin) as [(_ & ? & _) _]. }
  rewrite (replace_char_absent RSQUO).
  2:{ intros Hin. rewrite Forall_forall in Hc. by destruct (Hc _ Hin) as [(_ & _ & ?) _]. }
  rewrite filter_all.
  2:{ eapply Forall_impl; [exact Hc|]. by intros c [_ ?]. }
  rewrite (spaced_sub_ws false y Hsp).
  by rewrite (no_lead_lstrip y Hl).
Qed.
End text_facts.

(** The tables of the ASCII range obey the laws. *)
Lemma AsciiRange_lower_char_fixed c :
  AsciiRange.lower_char (AsciiRange.lower_char c) = AsciiRange.lower_char c.
Proof.
  unfold AsciiRange.lower_char, AsciiRange.between.
  destruct (N.leb_spec 65 c), (N.leb_spec c 90); simpl;
    repeat match goal with
    | |- context [(?a <=? ?b)%N] => destruct (N.leb_spec a b); simpl
    end; try done; lia.
Qed.

Lemma AsciiRange_laws : UnicodeLaws AsciiRange.tables.
Proof.
  split; simpl; try done.
  - intros s c (d & -> & _)%list_elem_of_fmap.
    by rewrite AsciiRange_lower_char_fixed.
  - induction s as [|c s IH]; intros Hs; [done|].
    rewrite fmap_cons. f_equal.
    + assert ([AsciiRange.lower_char c] = [c]) as Hc by (apply Hs; left).
      by injection Hc.
    + apply IH. intros d Hd. apply Hs. by right.
Qed.

(** C6: the text normalizer is idempotent: cleaning a cleaned text leaves
    it as it is, for every input string (under the laws of the
    interpreter's character tables). *)
Theorem clean_text_idempotent (U : Unicode) (HU : UnicodeLaws U) (x : str) :
  clean_text U (clean_text U x) = clean_text U x.
Proof. apply cleaned_clean_text; [done|]. by apply clean_text_cleaned. Qed.

Lemma clean_text_idempotent_witness :
  UnicodeLaws AsciiRange.tables ∧
  clean_text AsciiRange.tables (clean_text AsciiRange.tables (lit "It's  The cat.")) =
  clean_text AsciiRange.tables (lit "It's  The cat.").
Proof.
  split; [exact AsciiRange_laws|].
  exact (clean_text_idempotent AsciiRange.tables AsciiRange_laws (lit "It's  The cat.")).
Defined.

(** ** The counter *)

Lemma dict_sorted_id {V} (d : gmap str V) : dict_sorted d = d.
Proof.
  unfold dict_sorted, sorted_items.
  rewrite <- (list_to_map_to_list d) at 2.
  apply list_to_map_proper.
  - rewrite merge_sort_Permutation. apply NoDup_fst_map_to_list.
  - apply merge_sort_Permutation.
Qed.

Lemma bump_spec_position n i v :
  bump (spec_position n i) v =
  if bool_decide (2 ≤ n) then alter S (pos_idx n i) v else v.
Proof.
  unfold spec_position, pos_idx.
  repeat case_bool_decide; simpl; try done; lia.
Qed.

Lemma pos_idx_lt n i : pos_idx n i < 3.
Proof. unfold pos_idx. repeat case_bool_decide; lia. Qed.

Lemma occ_total_app k occs occs' :
  occ_total k (occs ++ occs') = occ_total k occs + occ_total k occs'.
Proof. unfold occ_total. by rewrite filter_app, length_app. Qed.

Lemma occ_at_app pos k occs occs' :
  occ_at pos k (occs ++ occs') = occ_at pos k occs + occ_at pos k occs'.
Proof. unfold occ_at. by rewrite filter_app, length_app. Qed.

Lemma occ_total_one k o : occ_total k [o] = if decide (o.1 = k) then 1 else 0.
Proof. unfold occ_total. rewrite filter_cons, filter_nil. by case_decide. Qed.

Lemma occ_at_one pos k o : occ_at pos k [o] = if decide (o = (k, Some pos)) then 1 else 0.
Proof. unfold occ_at. rewrite filter_cons, filter_nil. by case_decide. Qed.

(** Positional tallies never exceed the total. *)
Lemma occ_at_le_total k occs :
  occ_at Initial k occs + occ_at Medial k occs + occ_at Final k occs ≤ occ_total k occs.
Proof.
  induction occs as [|o occs IH]; [done|].
  change (o :: occs) with ([o] ++ occs).
  rewrite !occ_at_app, occ_total_app, !occ_at_one, occ_total_one.
  destruct o as [q pos]. simpl.
  repeat case_decide; simplify_eq; simpl in *; try lia; congruence.
Qed.

Section counter_facts.
Context (U : Unicode) (ignore_stress : bool).

Lemma tallies_empty : tallies [] (∅, ∅).
Proof. intros k. simpl. by rewrite !lookup_empty. Qed.

(** One pass through the body of the inner loop adds one occurrence. *)
Lemma tallies_count_phoneme occs acc n_ph i p :
  tallies occs acc →
  tallies (occs ++ [(counted_symbol U ignore_stress p, spec_position n_ph i)])
          (count_phoneme U ignore_stress n_ph i p acc).
Proof.
  destruct acc as [pc pbp]. intros Hacc k.
  unfold count_phoneme. fold (counted_symbol U ignore_stress p).
  set (q := counted_symbol U ignore_stress p).
  rewrite occ_total_app, !occ_at_app, occ_total_one, !occ_at_one. simpl.
  destruct (Hacc q) as [Hq1 Hq2]. destruct (Hacc k) as [Hk1 Hk2]. simpl in *.
  pose proof (occ_at_le_total q occs) as Hle.
  destruct (decide (q = k)) as [<-|Hne].
  - split.
    + destruct (pc !! q) as [c|] eqn:Hc; rewrite lookup_insert_eq;
        repeat case_decide; simplify_eq; try done; try lia; f_equal; lia.
    + assert (default [0; 0; 0] (pbp !! q) =
              [occ_at Initial q occs; occ_at Medial q occs; occ_at Final q occs]) as Hv.
      { rewrite Hq2. case_decide; [|done]. simpl.
        repeat f_equal; lia. }
      assert ((match pbp !! q with
               | Some _ => pbp
               | None => <[q:=[0; 0; 0]]> pbp
               end) !! q = Some (default [0; 0; 0] (pbp !! q))) as Hins.
      { destruct (pbp !! q) eqn:Hp; [done|]. by rewrite lookup_insert_eq. }
      assert ((if bool_decide (2 ≤ n_ph)
               then alter (alter S (pos_idx n_ph i)) q
                      (match pbp !! q with
                       | Some _ => pbp
                       | None => <[q:=[0; 0; 0]]> pbp
                       end)
               else match pbp !! q with
                    | Some _ => pbp
                    | None => <[q:=[0; 0; 0]]> pbp
                    end) !! q
              = Some (bump (spec_position n_ph i) (default [0; 0; 0] (pbp !! q)))) as ->.
      { rewrite bump_spec_position. case_bool_decide; [|done].
        by rewrite lookup_alter_eq, Hins. }
      rewrite Hv. rewrite decide_False by lia.
      destruct (spec_position n_ph i) as [[]|]; simpl;
        repeat case_decide; simplify_eq; repeat f_equal; lia.
  - rewrite !(decide_False (P := (q, _) = (k, _))) by congruence.
    rewrite !Nat.add_0_r. split.
    + rewrite <- Hk1. destruct (pc !! q); by rewrite lookup_insert_ne.
    + rewrite <- Hk2. case_bool_decide; [rewrite lookup_alter_ne by done|];
        destruct (pbp !! q); by rewrite ?lookup_insert_ne.
Qed.

Lemma tallies_count_phonemes occs acc n_ph i phonemes :
  tallies occs acc →
  tallies (occs ++ occurrences_from U ignore_stress n_ph i phonemes)
          (count_phonemes U ignore_stress n_ph i phonemes acc).
Proof.
  revert occs acc i. induction phonemes as [|p ps IH]; intros occs acc i Hacc.
  - unfold occurrences_from. simpl. by rewrite app_nil_r.
  - simpl. unfold occurrences_from. rewrite imap_cons, Nat.add_0_r.
    rewrite cons_middle, (assoc_L (++)).
    erewrite imap_ext; [apply (IH _ _ (S i)), tallies_count_phoneme, Hacc|].
    intros j x _. simpl. do 2 f_equal. lia.
Qed.

Lemma tallies_count_transcript occs acc phon_trans :
  tallies occs acc →
  tallies (occs ++ occurrences U ignore_stress phon_trans)
          (count_transcript U ignore_stress phon_trans acc).
Proof.
  revert occs acc. induction phon_trans as [|wp tr IH]; intros occs acc Hacc.
  - unfold occurrences. simpl. by rewrite app_nil_r.
  - unfold occurrences, count_transcript. rewrite bind_cons. simpl.
    rewrite (assoc_L (++)). apply IH. by apply tallies_count_phonemes.
Qed.

(** The counter computes the tallies of the transcription. *)
Lemma tallies_get_phoneme_stats phon_trans :
  tallies (occurrences U ignore_stress phon_trans)
          (get_phoneme_stats U ignore_stress phon_trans).
Proof.
  unfold get_phoneme_stats.
  pose proof (tallies_count_transcript [] (∅, ∅) phon_trans tallies_empty) as H.
  destruct (count_transcript _ _ _ _) as [pc pbp].
  by rewrite !dict_sorted_id.
Qed.
End counter_facts.

(** ** Validation *)

Lemma checks_None pc pbp :
  checks pc pbp = None ↔ ∃ k c, pc !! k = Some c ∧ pbp !! k = None.
Proof.
  unfold checks. rewrite mapM_None, Exists_exists. split.
  - intros ([k c] & Hin%elem_of_map_to_list & Hf). simpl in Hf.
    apply fmap_None in Hf. eauto.
  - intros (k & c & Hk & Hn). exists (k, c). split.
    + by apply elem_of_map_to_list.
    + simpl. by rewrite Hn.
Qed.

Lemma checks_Some pc pbp cs :
  checks pc pbp = Some cs →
  forallb id cs = true ↔
  ∀ k c v, pc !! k = Some c → pbp !! k = Some v → sum_list v ≤ c.
Proof.
  unfold checks. intros HF%mapM_Some_1. rewrite forallb_forall. split.
  - intros Hall k c v Hk Hv.
    apply elem_of_map_to_list, list_elem_of_lookup in Hk as [i Hi].
    destruct (Forall2_lookup_l _ _ _ _ _ HF Hi) as (b & Hb & Hf).
    simpl in Hf. rewrite Hv in Hf. simpl in Hf. injection Hf as <-.
    assert (bool_decide (sum_list v ≤ c) = true) as Hd.
    { apply (Hall (bool_decide (sum_list v ≤ c))).
      apply list_elem_of_In, list_elem_of_lookup. eauto. }
    by apply bool_decide_eq_true in Hd.
  - intros Hall b [i Hi]%list_elem_of_In%list_elem_of_lookup.
    destruct (Forall2_lookup_r _ _ _ _ _ HF Hi) as ([k c] & Hkc & Hf).
    simpl in Hf. destruct (pbp !! k) as [v|] eqn:Hv; [|done].
    simpl in Hf. injection Hf as <-. simpl.
    apply bool_decide_eq_true. apply (Hall k c v); [|done].
    apply elem_of_map_to_list, list_elem_of_lookup. eauto.
Qed.

Lemma check_counts_KeyError pc pbp :
  check_counts pc pbp = Raised KeyError ↔ ∃ k c, pc !! k = Some c ∧ pbp !! k = None.
Proof.
  unfold check_counts. rewrite <- checks_None.
  destruct (checks pc pbp) as [cs|]; [|done].
  destruct (forallb id cs); split; done.
Qed.

Lemma check_counts_Returned pc pbp :
  check_counts pc pbp = Returned () ↔
  ∀ k c, pc !! k = Some c → ∃ v, pbp !! k = Some v ∧ sum_list v ≤ c.
Proof.
  unfold check_counts. destruct (checks pc pbp) as [cs|] eqn:Hcs.
  - pose proof (checks_Some pc pbp cs Hcs) as Hall.
    assert (∀ k c, pc !! k = Some c → is_Some (pbp !! k)) as Hdom.
    { intros k c Hk. destruct (pbp !! k) eqn:Hv; [eauto|].
      assert (checks pc pbp = None) as Hn by (apply checks_None; eauto).
      congruence. }
    destruct (forallb id cs); split; try done.
    + intros _ k c Hk. destruct (Hdom k c Hk) as [v Hv].
      exists v. split; [done|]. by apply (proj1 Hall eq_refl k c v).
    + intros H. assert (false = true); [|done]. apply Hall.
      intros k c v Hk Hv. destruct (H k c Hk) as (v' & Hv' & Hle). congruence.
  - split; [done|]. apply checks_None in Hcs as (k & c & Hk & Hn).
    intros H. destruct (H k c Hk) as (v & Hv & _). congruence.
Qed.

Lemma check_counts_ValueError pc pbp :
  check_counts pc pbp = Raised ValueError ↔
  dom pc ⊆ dom pbp ∧ ∃ k c v, pc !! k = Some c ∧ pbp !! k = Some v ∧ c < sum_list v.
Proof.
  split.
  - intros HV.
    assert (dom pc ⊆ dom pbp) as Hdom.
    { intros k [c Hk]%elem_of_dom. apply elem_of_dom.
      destruct (pbp !! k) eqn:Hv; [eauto|].
      assert (check_counts pc pbp = Raised KeyError) as HK
        by (apply check_counts_KeyError; eauto).
      congruence. }
    split; [done|].
    unfold check_counts in HV. destruct (checks pc pbp) as [cs|] eqn:Hcs; [|done].
    destruct (forallb id cs) eqn:Hall; [done|].
    pose proof (checks_Some pc pbp cs Hcs) as Hiff.
    (* some check is false, so some key violates *)
    unfold checks in Hcs. apply mapM_Some_1 in Hcs.
    assert (∃ i, cs !! i = Some false) as [i Hi].
    { clear -Hall. induction cs as [|[] cs IH]; simpl in *; [done| |by exists 0].
      destruct (IH Hall) as [i Hi]. by exists (S i). }
    destruct (Forall2_lookup_r _ _ _ _ _ Hcs Hi) as ([k c] & Hkc & Hf).
    simpl in Hf. destruct (pbp !! k) as [v|] eqn:Hv; [|done].
    simpl in Hf. injection Hf as Hf. apply bool_decide_eq_false in Hf.
    exists k, c, v. split_and!; [|done|lia].
    apply elem_of_map_to_list, list_elem_of_lookup. eauto.
  - intros (Hdom & k & c & v & Hk & Hv & Hlt).
    destruct (check_counts pc pbp) as [[]|[]] eqn:Hc; [|done|].
    + pose proof (proj1 (check_counts_Returned pc pbp) Hc k c Hk) as (v' & Hv' & Hle).
      simplify_eq. lia.
    + apply (proj1 (check_counts_KeyError pc pbp)) in Hc as (k' & c' & Hk' & Hn).
      assert (k' ∈ dom pbp) as [? ?]%elem_of_dom by (apply Hdom, elem_of_dom; eauto).
      congruence.
Qed.

(** The counts of the counter pass the validation. *)
Lemma check_counts_get_phoneme_stats U ign phon_trans :
  check_counts (get_phoneme_stats U ign phon_trans).1
               (get_phoneme_stats U ign phon_trans).2 = Returned ().
Proof.
  apply check_counts_Returned. intros k c Hk.
  destruct (tallies_get_phoneme_stats U ign phon_trans k) as [H1 H2].
  rewrite H1 in Hk. rewrite H2. case_decide; [done|]. injection Hk as <-.
  eexists. split; [done|]. simpl.
  pose proof (occ_at_le_total k (occurrences U ign phon_trans)). lia.
Qed.

(** ** Passage construction *)

Section passage_facts.
Context (U : Unicode) (cmudict : str → list (list str)) (fs : filesystem).

(** What the constructor did when it returns. *)
Lemma Passage__init__Returned input nm ign g P g' :
  Passage__init__ U cmudict fs input nm ign g = (Returned P, g') →
  let tr := to_phonemes cmudict (clean_text U (read_input_text fs nm input).2) g [] in
  (phoneme_count P, phoneme_count_by_pos P) = get_phoneme_stats U ign (tr_transcript tr) ∧
  phon_trans P = tr_transcript tr ∧ oovs P = tr_oovs tr ∧ g' = tr_globals tr ∧
  text P = clean_text U (read_input_text fs nm input).2 ∧
  name P = (read_input_text fs nm input).1 ∧
  n_words P = length (tr_transcript tr).
Proof.
  unfold Passage__init__. destruct (read_input_text fs nm input) as [name' text'].
  simpl. destruct (get_phoneme_stats _ _ _) as [pc pbp].
  destruct (check_counts pc pbp); [|done].
  intros [= <- <-]. simpl. done.
Qed.

(** The constructor always returns. *)
Lemma Passage__init__returns input nm ign g :
  ∃ P g', Passage__init__ U cmudict fs input nm ign g = (Returned P, g').
Proof.
  unfold Passage__init__. destruct (read_input_text fs nm input) as [name' text'].
  pose proof (check_counts_get_phoneme_stats U ign
    (tr_transcript (to_phonemes cmudict (clean_text U text') g []))) as Hc.
  destruct (get_phoneme_stats _ _ _) as [pc pbp]. simpl in Hc. rewrite Hc.
  eauto.
Qed.

Lemma Passage_tallies input nm ign g P g' :
  Passage__init__ U cmudict fs input nm ign g = (Returned P, g') →
  tallies (occurrences U ign (phon_trans P)) (phoneme_count P, phoneme_count_by_pos P).
Proof.
  intros (Hs & Ht & _)%Passage__init__Returned.
  rewrite Hs, Ht. apply tallies_get_phoneme_stats.
Qed.
End passage_facts.

(** C1: in every passage that completes construction, the total count of
    each phoneme symbol of [phoneme_count] is at least the sum of the three
    entries (initial, medial, final) of its positional count. *)
Theorem phoneme_count_ge_positional (U : Unicode) (cmudict : str → list (list str))
    (fs : filesystem) (input : str) (nm : option str) (ign : bool) (g g' : globals)
    (P : Passage) (k : str) (c : nat) :
  Passage__init__ U cmudict fs input nm ign g = (Returned P, g') →
  phoneme_count P !! k = Some c →
  ∃ initial medial final,
    phoneme_count_by_pos P !! k = Some [initial; medial; final] ∧
    initial + medial + final ≤ c.
Proof.
  intros HP Hk. destruct (Passage_tallies _ _ _ _ _ _ _ _ _ HP k) as [H1 H2].
  simpl in *. rewrite H1 in Hk. rewrite H2. case_decide; [done|].
  injection Hk as <-. do 3 eexists. split; [done|]. apply occ_at_le_total.
Qed.

(** C2: the counter follows the positional rule.  For every transcription
    and every symbol, the total is the number of occurrences of the symbol,
    and the positional vector holds the numbers of its occurrences that the
    rule classifies as initial, medial and final: occurrences in variants of
    length 0 or 1 have no position and are in the total only; otherwise
    index 0 is initial, index [n - 1] final and every other index medial. *)
Theorem positional_counts_follow_rule (U : Unicode) (ign : bool)
    (phon_trans : list (str * list str)) (k : str) :
  let occs := occurrences U ign phon_trans in
  let stats := get_phoneme_stats U ign phon_trans in
  stats.1 !! k =
    (if decide (occ_total k occs = 0) then None else Some (occ_total k occs)) ∧
  stats.2 !! k =
    (if decide (occ_total k occs = 0) then None
     else Some [occ_at Initial k occs; occ_at Medial k occs; occ_at Final k occs]) ∧
  (∀ n i, i < n →
     spec_position n i =
       if bool_decide (2 ≤ n) then
         Some (if bool_decide (i = 0) then Initial
               else if bool_decide (i = n - 1) then Final else Medial)
       else None) ∧
  (∀ n i p acc,
     count_phoneme U ign n i p acc =
     (<[counted_symbol U ign p := S (default 0 (acc.1 !! counted_symbol U ign p))]> acc.1,
      <[counted_symbol U ign p :=
          bump (spec_position n i) (default [0; 0; 0] (acc.2 !! counted_symbol U ign p))]> acc.2)).
Proof.
  intros occs stats.
  destruct (tallies_get_phoneme_stats U ign phon_trans k) as [H1 H2].
  split_and!; [done|done| |].
  - intros n i Hi. unfold spec_position. repeat case_bool_decide; try done; lia.
  - intros n i p [pc pbp]. unfold count_phoneme. fold (counted_symbol U ign p).
    set (q := counted_symbol U ign p). simpl. f_equal.
    + destruct (pc !! q); simpl; f_equal; lia.
    + rewrite bump_spec_position. apply map_eq. intros j.
      destruct (decide (j = q)) as [->|Hne].
      * rewrite lookup_insert_eq.
        case_bool_decide; [rewrite lookup_alter_eq|];
          destruct (pbp !! q) eqn:Hq; simpl; by rewrite ?Hq, ?lookup_insert_eq.
      * rewrite lookup_insert_ne by done.
        case_bool_decide; [rewrite lookup_alter_ne by done|];
          destruct (pbp !! q) eqn:Hq; simpl; by rewrite ?lookup_insert_ne.
Qed.

(** C7: the validation raises [ValueError] exactly when some phoneme's
    positional counts sum to more than its total (every counted phoneme
    having a positional entry); on the counts of the counter it never does,
    so constructing a passage always returns a passage. *)
Theorem validation_never_fails :
  (∀ pc pbp,
     check_counts pc pbp = Raised ValueError ↔
     dom pc ⊆ dom pbp ∧
     ∃ k c v, pc !! k = Some c ∧ pbp !! k = Some v ∧ c < sum_list v) ∧
  (∀ U ign phon_trans,
     check_counts (get_phoneme_stats U ign phon_trans).1
                  (get_phoneme_stats U ign phon_trans).2 = Returned ()) ∧
  (∀ U cmudict fs input nm ign g,
     ∃ P g', Passage__init__ U cmudict fs input nm ign g = (Returned P, g')).
Proof.
  split_and!.
  - apply check_counts_ValueError.
  - apply check_counts_get_phoneme_stats.
  - apply Passage__init__returns.
Qed.

(** C9: in every passage that completes construction, [phoneme_count] and
    [phoneme_count_by_pos] have the same keys, each positional entry is a
    vector of three counts, and the validation finds every key it looks
    up. *)
Theorem count_tables_same_keys (U : Unicode) (cmudict : str → list (list str))
    (fs : filesystem) (input : str) (nm : option str) (ign : bool) (g g' : globals)
    (P : Passage) :
  Passage__init__ U cmudict fs input nm ign g = (Returned P, g') →
  dom (phoneme_count P) = dom (phoneme_count_by_pos P) ∧
  (∀ k v, phoneme_count_by_pos P !! k = Some v → length v = 3) ∧
  checks (phoneme_count P) (phoneme_count_by_pos P) ≠ None.
Proof.
  intros HP. pose proof (Passage_tallies _ _ _ _ _ _ _ _ _ HP) as HT.
  split_and!.
  - apply set_eq. intros k. rewrite !elem_of_dom.
    destruct (HT k) as [H1 H2]. simpl in H1, H2. rewrite H1, H2.
    case_decide; [by rewrite <- !not_eq_None_Some|].
    split; eauto.
  - intros k v Hv. destruct (HT k) as [_ H2]. simpl in H2. rewrite H2 in Hv.
    case_decide; [done|]. by injection Hv as <-.
  - intros (k & c & Hk & Hn)%checks_None.
    destruct (HT k) as [H1 H2]. simpl in *. rewrite H1 in Hk. rewrite H2 in Hn.
    by case_decide.
Qed.

(** ** The transcriber and the cache *)

Section transcriber_facts.
Context (cmudict : str → list (list str)).

Lemma to_phonemes_word_hit st w v :
  phoneme_cache (tr_globals st) !! w = Some v →
  to_phonemes_word cmudict st w =
  Transcriber (tr_globals st) (tr_oovs st) (tr_transcript st ++ [(w, v)]).
Proof. intros H. unfold to_phonemes_word. by rewrite H. Qed.

Lemma to_phonemes_word_miss st w :
  phoneme_cache (tr_globals st) !! w = None →
  to_phonemes_word cmudict st w =
  Transcriber
    (Globals (<[w := first_variant (cmudict w)]> (phoneme_cache (tr_globals st)))
             (cmudict_calls (tr_globals st) ++ [w]))
    (tr_oovs st ++ match cmudict w with [] => [w] | _ => [] end)
    (tr_transcript st ++ [(w, first_variant (cmudict w))]).
Proof.
  intros H. unfold to_phonemes_word. rewrite H.
  destruct (cmudict w); simpl; by rewrite ?app_nil_r.
Qed.

(** The module's state does not depend on the passage that looks up. *)
Lemma to_phonemes_word_globals st st' w :
  tr_globals st = tr_globals st' →
  tr_globals (to_phonemes_word cmudict st w) =
  tr_globals (to_phonemes_word cmudict st' w).
Proof.
  intros Hg. unfold to_phonemes_word. rewrite Hg.
  destruct (phoneme_cache (tr_globals st') !! w); [done|].
  by destruct (cmudict w).
Qed.

Lemma foldl_to_phonemes_word_globals words st :
  tr_globals (foldl (to_phonemes_word cmudict) st words) =
  lookups cmudict words (tr_globals st).
Proof.
  unfold lookups.
  assert (tr_globals st = tr_globals (Transcriber (tr_globals st) [] [])) as Hg by done.
  revert Hg. generalize (Transcriber (tr_globals st) [] []). revert st.
  induction words as [|w ws IH]; intros st st' Hg; simpl; [done|].
  by apply IH, to_phonemes_word_globals.
Qed.

Lemma to_phonemes_globals text g oovs :
  tr_globals (to_phonemes cmudict text g oovs) = lookups cmudict (split SPACE text) g.
Proof. unfold to_phonemes. by rewrite foldl_to_phonemes_word_globals. Qed.

(** An entry of the cache stays as it is. *)
Lemma to_phonemes_word_keeps st w' w v :
  phoneme_cache (tr_globals st) !! w = Some v →
  phoneme_cache (tr_globals (to_phonemes_word cmudict st w')) !! w = Some v.
Proof.
  intros Hw. unfold to_phonemes_word.
  destruct (phoneme_cache (tr_globals st) !! w') eqn:Hw'; [done|].
  assert (w' ≠ w) by congruence.
  destruct (cmudict w'); simpl; by rewrite lookup_insert_ne.
Qed.

Lemma foldl_to_phonemes_word_keeps words st w v :
  phoneme_cache (tr_globals st) !! w = Some v →
  phoneme_cache (tr_globals (foldl (to_phonemes_word cmudict) st words)) !! w = Some v.
Proof.
  revert st. induction words as [|w' ws IH]; intros st Hw; simpl; [done|].
  by apply IH, to_phonemes_word_keeps.
Qed.

Lemma lookups_keeps words g w v :
  phoneme_cache g !! w = Some v →
  phoneme_cache (lookups cmudict words g) !! w = Some v.
Proof. intros Hw. by apply foldl_to_phonemes_word_keeps. Qed.

Lemma transcribe_all_keeps texts g w v :
  phoneme_cache g !! w = Some v →
  phoneme_cache (transcribe_all cmudict texts g) !! w = Some v.
Proof.
  unfold transcribe_all. revert g.
  induction texts as [|t ts IH]; intros g Hw; simpl; [done|].
  apply IH. rewrite to_phonemes_globals. by apply lookups_keeps.
Qed.

(** No word is looked up twice in the dictionary. *)
Lemma to_phonemes_word_calls_cached st w :
  calls_cached (tr_globals st) →
  calls_cached (tr_globals (to_phonemes_word cmudict st w)).
Proof.
  intros [Hnd Hin].
  destruct (phoneme_cache (tr_globals st) !! w) as [v|] eqn:Hw.
  - by rewrite (to_phonemes_word_hit st w v Hw).
  - rewrite (to_phonemes_word_miss st w Hw). split; simpl.
    + apply NoDup_app. split_and!; [done| |apply NoDup_singleton].
      intros x Hx ->%list_elem_of_singleton.
      destruct (Hin _ Hx) as [? ?]. congruence.
    + intros x [Hx| ->%list_elem_of_singleton]%elem_of_app.
      * destruct (decide (w = x)) as [->|];
          [rewrite lookup_insert_eq|rewrite lookup_insert_ne]; eauto.
      * rewrite lookup_insert_eq. eauto.
Qed.

Lemma foldl_to_phonemes_word_calls_cached words st :
  calls_cached (tr_globals st) →
  calls_cached (tr_globals (foldl (to_phonemes_word cmudict) st words)).
Proof.
  revert st. induction words as [|w ws IH]; intros st Hst; simpl; [done|].
  by apply IH, to_phonemes_word_calls_cached.
Qed.

Lemma lookups_calls_cached words g :
  calls_cached g → calls_cached (lookups cmudict words g).
Proof. intros Hg. by apply foldl_to_phonemes_word_calls_cached. Qed.

Lemma transcribe_all_calls_cached texts g :
  calls_cached g → calls_cached (transcribe_all cmudict texts g).
Proof.
  unfold transcribe_all. revert g.
  induction texts as [|t ts IH]; intros g Hg; simpl; [done|].
  apply IH. rewrite to_phonemes_globals. by apply lookups_calls_cached.
Qed.
End transcriber_facts.

Lemma calls_cached_fresh : calls_cached fresh_globals.
Proof. split; simpl; [constructor|]. by intros w ?%elem_of_nil. Qed.

(** C5: the first look-up of a word queries the dictionary once and stores
    the first variant it returns (the empty sequence when it returns none);
    whatever passages and words are transcribed afterwards, every later
    look-up of the word returns that same variant and leaves the module's
    state, and with it the list of dictionary queries, as it is.  Over a
    whole run no word is queried twice. *)
Theorem lookup_queries_once (cmudict : str → list (list str)) (g : globals)
    (oovs0 : list str) (trans0 : list (str * list str)) (w : str) :
  phoneme_cache g !! w = None →
  let st1 := to_phonemes_word cmudict (Transcriber g oovs0 trans0) w in
  let g1 := tr_globals st1 in
  tr_transcript st1 = trans0 ++ [(w, first_variant (cmudict w))] ∧
  cmudict_calls g1 = cmudict_calls g ++ [w] ∧
  phoneme_cache g1 !! w = Some (first_variant (cmudict w)) ∧
  (∀ texts words oovs' trans',
     let g2 := lookups cmudict words (transcribe_all cmudict texts g1) in
     to_phonemes_word cmudict (Transcriber g2 oovs' trans') w =
     Transcriber g2 oovs' (trans' ++ [(w, first_variant (cmudict w))])) ∧
  (∀ texts, NoDup (cmudict_calls (transcribe_all cmudict texts fresh_globals))).
Proof.
  intros Hw st1 g1. subst g1 st1.
  rewrite (to_phonemes_word_miss cmudict (Transcriber g oovs0 trans0) w Hw). simpl.
  split; [done|]. split; [done|]. split; [by rewrite lookup_insert_eq|]. split.
  - intros texts words oovs' trans'.
    apply (to_phonemes_word_hit cmudict (Transcriber _ oovs' trans')). simpl.
    apply lookups_keeps, transcribe_all_keeps. simpl. by rewrite lookup_insert_eq.
  - intros texts. apply (transcribe_all_calls_cached cmudict texts fresh_globals).
    apply calls_cached_fresh.
Qed.

Lemma lookup_queries_once_witness :
  phoneme_cache fresh_globals !! lit "the" = None ∧
  let st1 := to_phonemes_word stub_cmudict (Transcriber fresh_globals [] []) (lit "the") in
  let g1 := tr_globals st1 in
  tr_transcript st1 = [] ++ [(lit "the", first_variant (stub_cmudict (lit "the")))] ∧
  cmudict_calls g1 = cmudict_calls fresh_globals ++ [lit "the"] ∧
  phoneme_cache g1 !! lit "the" = Some (first_variant (stub_cmudict (lit "the"))) ∧
  (∀ texts words oovs' trans',
     let g2 := lookups stub_cmudict words (transcribe_all stub_cmudict texts g1) in
     to_phonemes_word stub_cmudict (Transcriber g2 oovs' trans') (lit "the") =
     Transcriber g2 oovs' (trans' ++ [(lit "the", first_variant (stub_cmudict (lit "the")))])) ∧
  (∀ texts, NoDup (cmudict_calls (transcribe_all stub_cmudict texts fresh_globals))).
Proof.
  split; [reflexivity|].
  exact (lookup_queries_once stub_cmudict fresh_globals [] [] (lit "the") eq_refl).
Defined.

(** C4, on the code: a word that the dictionary does not know is recorded
    once in the OOV list of the first passage that meets it, however often
    it occurs there; a later passage of the same process finds the empty
    entry in the shared cache and does not record the word at all. *)
Theorem oov_missed_after_earlier_passage :
  ∃ P1 g1 P2 g2,
    Passage__init__ AsciiRange.tables stub_cmudict ∅
      (lit "xyzzy cat xyzzy") None true fresh_globals = (Returned P1, g1) ∧
    Passage__init__ AsciiRange.tables stub_cmudict ∅
      (lit "a xyzzy") None true g1 = (Returned P2, g2) ∧
    oovs P1 = [lit "xyzzy"] ∧
    phon_trans P2 = [(lit "a", [lit "AH0"]); (lit "xyzzy", [])] ∧
    oovs P2 = [].
Proof.
  eexists _, _, _, _.
  split; [vm_compute; reflexivity|].
  split; [vm_compute; reflexivity|].
  split_and!; vm_compute; reflexivity.
Qed.

(** C3, on the code: splitting the empty text on blanks gives one empty
    token, so the transcription of an empty cleaned text has one pair, for
    the empty word; with an empty cache and a dictionary that does not know
    the empty word, the empty word is recorded as OOV. *)
Theorem empty_text_one_token :
  split SPACE [] = [[]] ∧
  (∀ cmudict g oovs0,
     ∃ phonemes, tr_transcript (to_phonemes cmudict [] g oovs0) = [([], phonemes)]) ∧
  (∃ P g',
     Passage__init__ AsciiRange.tables stub_cmudict ∅ (lit "") None true fresh_globals
       = (Returned P, g') ∧
     text P = [] ∧ phon_trans P = [([], [])] ∧ n_words P = 1 ∧ oovs P = [[]]) ∧
  (∃ P g',
     Passage__init__ AsciiRange.tables stub_cmudict ∅ (lit " ... ") None true fresh_globals
       = (Returned P, g') ∧
     text P = [] ∧ n_words P = 1 ∧ oovs P = [[]]).
Proof.
  split_and!.
  - reflexivity.
  - intros cmudict g oovs0. unfold to_phonemes. simpl. unfold to_phonemes_word. simpl.
    destruct (phoneme_cache g !! []); [by eexists|].
    destruct (cmudict []); by eexists.
  - eexists _, _. split; [vm_compute; reflexivity|].
    split_and!; vm_compute; reflexivity.
  - eexists _, _. split; [vm_compute; reflexivity|].
    split_and!; vm_compute; reflexivity.
Qed.

(** ** The corpus *)

Lemma split_nonempty sep s : split sep s ≠ [].
Proof.
  destruct s as [|c s]; simpl; [done|].
  case_decide; [done|]. by destruct (split sep s).
Qed.

Lemma split_no_sep sep w : sep ∉ w → split sep w = [w].
Proof.
  induction w as [|c w IH]; simpl; [done|].
  intros [Hc Hw]%not_elem_of_cons.
  rewrite decide_False by done. by rewrite IH.
Qed.

Lemma split_app_sep sep w rest :
  sep ∉ w → split sep (w ++ sep :: rest) = w :: split sep rest.
Proof.
  induction w as [|c w IH]; simpl.
  - intros _. by rewrite decide_True.
  - intros [Hc Hw]%not_elem_of_cons.
    rewrite decide_False by done. by rewrite IH.
Qed.

Lemma length_split sep s : length (split sep s) = S (length (filter (λ c, c = sep) s)).
Proof.
  induction s as [|c s IH]; simpl; [done|].
  rewrite filter_cons. case_decide; simpl; [by rewrite IH|].
  destruct (split sep s) as [|w ws] eqn:Hs; [by destruct (split_nonempty sep s)|].
  simpl in *. done.
Qed.

(** The lines of the exported file are the OOV words. *)
Lemma split_join_lines ws :
  ws ≠ [] → Forall (λ w, LF ∉ w) ws → split LF (join [LF] ws) = ws.
Proof.
  intros Hne Hws. induction Hws as [|w ws Hw Hws IH]; [done|].
  destruct ws as [|w' ws'].
  - simpl. by apply split_no_sep.
  - change (join [LF] (w :: w' :: ws')) with (w ++ LF :: join [LF] (w' :: ws')).
    rewrite split_app_sep by done. by rewrite IH.
Qed.

(** The OOV words of a corpus are those of its passages, each once. *)
Lemma find_oovs_spec O passages :
  NoDup (find_oovs O passages) ∧
  ∀ w, w ∈ find_oovs O passages ↔ ∃ P, P ∈ passages ∧ w ∈ oovs P.
Proof.
  unfold find_oovs. split; [apply list_of_set_NoDup|].
  intros w. rewrite list_of_set_elem, list_elem_of_bind.
  split; intros (P & ? & ?); by exists P.
Qed.

(** [sep.join] written out: the first word, then each other word after a
    separator. *)
Lemma join_first_rest sep w ws : join sep (w :: ws) = w ++ (x ← ws; sep ++ x).
Proof.
  revert w. induction ws as [|w' ws IH]; intros w.
  - simpl. by rewrite app_nil_r.
  - change (join sep (w :: w' :: ws)) with (w ++ sep ++ join sep (w' :: ws)).
    rewrite IH. simpl. by rewrite <- !(assoc_L (++)).
Qed.

(** The base name of a path has no slash, and the path is the base name,
    or ends with a slash and the base name. *)
Lemma basename_spec p :
  (SLASH ∉ basename p) ∧ (p = basename p ∨ ∃ dir, p = dir ++ SLASH :: basename p).
Proof.
  unfold basename. induction p as [|c p [IHs IHp]].
  - simpl. split; [by intros ?%elem_of_nil|by left].
  - pose proof (length_split SLASH p) as Hlen.
    cbn [split]. case_decide as Hc.
    + subst c. destruct (split SLASH p) as [|w ws] eqn:Hs; [by destruct (split_nonempty SLASH p)|].
      rewrite last_cons_cons. split; [done|]. right.
      destruct IHp as [Hp|[dir Hp]].
      * exists []. simpl. by f_equal.
      * exists (SLASH :: dir). simpl. by f_equal.
    + destruct (split SLASH p) as [|w [|w' ws]] eqn:Hs.
      * by destruct (split_nonempty SLASH p).
      * simpl in *. split.
        -- by intros [?|?]%elem_of_cons.
        -- left. destruct IHp as [Hp|[dir Hp]]; [by f_equal|].
           exfalso. rewrite Hp in Hlen.
           rewrite filter_app, filter_cons, decide_True, length_app in Hlen by done.
           simpl in Hlen. lia.
      * rewrite last_cons_cons. split; [done|]. right.
        destruct IHp as [Hp|[dir Hp]].
        -- exfalso. rewrite last_cons_cons in IHs, Hp.
           assert (split SLASH p = [p]) as Hone.
           { apply split_no_sep. by rewrite Hp. }
           rewrite Hs in Hone. done.
        -- exists (c :: dir). simpl. by f_equal.
Qed.

(** C8: [export_oovs] on a corpus without OOV words leaves every file as it
    is and prints one message; otherwise it writes to [outpath], or to
    [oovs.txt] in the directory of the corpus when [outpath] is [None], the
    first OOV word followed by each other OOV word after a newline, so that
    the lines of the file are the OOV words (when no word has a newline in
    it); it touches no other file and prints nothing. *)
Theorem export_oovs_effect (self : Corpus) (outpath : option str) (os : os_state) :
  let os' := export_oovs self outpath os in
  match corpus_oovs self with
  | [] =>
      files os' = files os ∧
      stdout os' = stdout os ++ [lit "No OOV words in the corpus."]
  | w :: ws =>
      let path := default (directory self ++ lit "/oovs.txt") outpath in
      ∃ content,
        files os' !! path = Some content ∧
        content = w ++ (x ← ws; LF :: x) ∧
        (Forall (λ x, LF ∉ x) (w :: ws) → split LF content = w :: ws) ∧
        (∀ p, p ≠ path → files os' !! p = files os !! p) ∧
        stdout os' = stdout os
  end.
Proof.
  intros os'. subst os'. unfold export_oovs.
  destruct (corpus_oovs self) as [|w ws]; simpl.
  - done.
  - try (rewrite bool_decide_eq_true_2 by lia). cbn [files stdout].
    exists (join [LF] (w :: ws)). split_and!.
    + destruct outpath; simpl; by rewrite lookup_insert_eq.
    + apply (join_first_rest [LF]).
    + intros Hlf. by apply split_join_lines.
    + intros q Hq. destruct outpath; simpl in *; by rewrite lookup_insert_ne.
    + done.
Qed.

(** C10: the constructor takes its text argument for a path exactly when
    the file system has a file at it.  Then the text of the passage is the
    cleaned content of the file, and its name is the name given or, when
    none was given, the base name of the path: the part of the path after
    its last slash, or the whole path when it has no slash; the passage is
    the one of the file's content as text under that name.  Otherwise the
    argument itself is the text, and the name is the one given, if any.
    The constructor returns in both cases. *)
Theorem existing_file_is_read (U : Unicode) (cmudict : str → list (list str))
    (fs : filesystem) (input : str) (nm : option str) (ign : bool) (g : globals) :
  ∃ P g',
    Passage__init__ U cmudict fs input nm ign g = (Returned P, g') ∧
    match fs !! input with
    | Some content =>
        read_input_text fs nm input = (name P, content) ∧
        text P = clean_text U content ∧
        match nm with
        | Some n => name P = Some n
        | None =>
            ∃ base, name P = Some base ∧ (SLASH ∉ base) ∧
                    (input = base ∨ ∃ dir, input = dir ++ SLASH :: base)
        end ∧
        Passage__init__ U cmudict ∅ content (name P) ign g = (Returned P, g')
    | None =>
        read_input_text fs nm input = (nm, input) ∧
        text P = clean_text U input ∧
        name P = nm ∧
        Passage__init__ U cmudict ∅ input nm ign g = (Returned P, g')
    end.
Proof.
  destruct (Passage__init__returns U cmudict fs input nm ign g) as (P & g' & HP).
  exists P, g'. split; [done|].
  pose proof (Passage__init__Returned U cmudict fs input nm ign g P g' HP)
    as (_ & _ & _ & _ & Ht & Hn & _).
  unfold Passage__init__ in *. unfold read_input_text in *.
  rewrite !lookup_empty.
  destruct (fs !! input) as [content|] eqn:Hfs; simpl in *.
  - rewrite Hn. split_and!; [done|done| |by destruct nm].
    destruct nm as [n|]; [done|].
    exists (basename input). split; [done|]. apply basename_spec.
  - by rewrite Hn.
Qed.

(** ** The scenario of the specification, and the witnesses *)

Example scenario_counts :
  ∃ P g',
    Passage__init__ AsciiRange.tables stub_cmudict ∅
      (lit "The cat sat.") None true fresh_globals = (Returned P, g') ∧
    text P = lit "the cat sat" ∧
    (λ k, phoneme_count P !! lit k) <$> ["AE"; "DH"; "K"; "S"; "T"; "AH"]%string
      = Some <$> [2; 1; 1; 1; 2; 1] ∧
    phoneme_count_by_pos P !! lit "T" = Some [0; 0; 2] ∧
    phoneme_count_by_pos P !! lit "AE" = Some [0; 2; 0] ∧
    n_words P = 3 ∧ n_phonemes P = 8 ∧ n_unique_phonemes P = 6 ∧ oovs P = [] ∧
    cmudict_calls g' = [lit "the"; lit "cat"; lit "sat"].
Proof.
  eexists _, _. split; [vm_compute; reflexivity|].
  split_and!; vm_compute; reflexivity.
Qed.

(** With stress kept, the symbols keep their digits. *)
Example scenario_counts_stress :
  ∃ P g',
    Passage__init__ AsciiRange.tables stub_cmudict ∅
      (lit "The cat sat.") None false fresh_globals = (Returned P, g') ∧
    phoneme_count P !! lit "AE1" = Some 2 ∧ phoneme_count P !! lit "AE" = None ∧
    phoneme_count P !! lit "AH0" = Some 1.
Proof.
  eexists _, _. split; [vm_compute; reflexivity|].
  split_and!; vm_compute; reflexivity.
Qed.

(** A one-phoneme word counts in the total and in no position. *)
Example one_phoneme_word :
  get_phoneme_stats AsciiRange.tables true [(lit "a", [lit "AH0"])]
  = ({[ lit "AH" := 1 ]}, {[ lit "AH" := [0; 0; 0] ]}).
Proof.
  pose proof (dict_sorted_id (V := nat)) as H1.
  pose proof (dict_sorted_id (V := list nat)) as H2.
  unfold get_phoneme_stats. simpl. rewrite H1, H2.
  vm_compute. reflexivity.
Qed.

Example strip_stress_examples :
  strip_stress AsciiRange.tables (lit "AH0") = lit "AH" ∧
  strip_stress AsciiRange.tables (lit "K") = lit "K" ∧
  strip_stress AsciiRange.tables (lit "12") = lit "1" ∧
  strip_stress AsciiRange.tables (lit "AH0" ++ [LF]) = lit "AH" ++ [LF].
Proof. split_and!; reflexivity. Qed.

Example split_examples :
  split SPACE (lit "the cat sat") = [lit "the"; lit "cat"; lit "sat"] ∧
  split SPACE (lit "a  b") = [lit "a"; []; lit "b"] ∧
  split SPACE (lit "") = [[]] ∧
  basename (lit "corpus/notes.txt") = lit "notes.txt".
Proof. split_and!; reflexivity. Qed.

Lemma phoneme_count_ge_positional_witness :
  ∃ P g',
    Passage__init__ AsciiRange.tables stub_cmudict ∅
      (lit "The cat sat.") None true fresh_globals = (Returned P, g') ∧
    phoneme_count P !! lit "T" = Some 2 ∧
    ∃ initial medial final,
      phoneme_count_by_pos P !! lit "T" = Some [initial; medial; final] ∧
      initial + medial + final ≤ 2.
Proof.
  eexists _, _. split; [vm_compute; reflexivity|].
  split; [vm_compute; reflexivity|].
  eapply (phoneme_count_ge_positional AsciiRange.tables stub_cmudict ∅
            (lit "The cat sat.") None true fresh_globals);
    vm_compute; reflexivity.
Defined.

Lemma count_tables_same_keys_witness :
  ∃ P g',
    Passage__init__ AsciiRange.tables stub_cmudict ∅
      (lit "The cat sat.") None true fresh_globals = (Returned P, g') ∧
    dom (phoneme_count P) = dom (phoneme_count_by_pos P) ∧
    (∀ k v, phoneme_count_by_pos P !! k = Some v → length v = 3) ∧
    checks (phoneme_count P) (phoneme_count_by_pos P) ≠ None.
Proof.
  eexists _, _. split; [vm_compute; reflexivity|].
  eapply (count_tables_same_keys AsciiRange.tables stub_cmudict ∅
            (lit "The cat sat.") None true fresh_globals).
  vm_compute; reflexivity.
Defined.

(** A path that names a file is read; the same string is text when there is
    no such file. *)
Example file_or_text :
  let fs : filesystem := {[ lit "notes.txt" := lit "The cat sat." ]} in
  read_input_text fs None (lit "notes.txt") = (Some (lit "notes.txt"), lit "The cat sat.") ∧
  read_input_text fs (Some (lit "n")) (lit "notes.txt") = (Some (lit "n"), lit "The cat sat.") ∧
  read_input_text ∅ None (lit "notes.txt") = (None, lit "notes.txt").
Proof. split_and!; vm_compute; reflexivity. Qed.

Example export_oovs_examples :
  let c := {| directory := lit "corpus"; passages := []; corpus_oovs := [lit "xyzzy"; lit "plugh"] |} in
  let c0 := {| directory := lit "corpus"; passages := []; corpus_oovs := [] |} in
  files (export_oovs c None (OS ∅ [])) !! lit "corpus/oovs.txt"
    = Some (lit "xyzzy" ++ [LF] ++ lit "plugh") ∧
  files (export_oovs c (Some (lit "out.txt")) (OS ∅ [])) !! lit "out.txt"
    = Some (lit "xyzzy" ++ [LF] ++ lit "plugh") ∧
  export_oovs c0 None (OS ∅ []) = OS ∅ [lit "No OOV words in the corpus."].
Proof. split_and!; vm_compute; reflexivity. Qed.


(** ** More on the transcriber *)

Section transcribed_facts.
Context (cmudict : str → list (list str)).

Lemma transcribed_start g oovs0 : transcribed cmudict g oovs0 [] (Transcriber g oovs0 []).
Proof.
  split_and!; simpl.
  - intros w. by destruct (phoneme_cache g !! w).
  - exists []. rewrite app_nil_r. split_and!; [done|constructor|].
    intros w. split; [by intros ?%elem_of_nil|by intros [?%elem_of_nil _]].
  - exists []. rewrite app_nil_r. split_and!; [done|constructor|].
    intros w. split; [by intros ?%elem_of_nil|by intros [?%elem_of_nil _]].
  - done.
  - by intros w ph ?%elem_of_nil.
Qed.

Lemma transcribed_step g oovs0 ws st w :
  transcribed cmudict g oovs0 ws st →
  transcribed cmudict g oovs0 (ws ++ [w]) (to_phonemes_word cmudict st w).
Proof.
  intros (Hc & (no & Ho & Hnd & Hin) & (nc & Hcalls & Hndc & Hinc) & Ht & Hp).
  assert (∀ w', w' ∈ ws ++ [w] ↔ w' ∈ ws ∨ w' = w) as Hsnoc.
  { intros w'. by rewrite elem_of_app, list_elem_of_singleton. }
  destruct (phoneme_cache (tr_globals st) !! w) as [v|] eqn:Hw.
  - (* the cache has the word *)
    rewrite (to_phonemes_word_hit cmudict st w v Hw).
    assert (phoneme_cache g !! w = None → w ∈ ws) as Hseen.
    { intros Hg. pose proof (Hc w) as Hcw. rewrite Hw, Hg in Hcw. by case_decide. }
    split_and!; simpl.
    + intros w'. rewrite Hc. destruct (phoneme_cache g !! w') eqn:Hg; [done|].
      destruct (decide (w' ∈ ws)) as [Hi|Hn], (decide (w' ∈ ws ++ [w])) as [Hi'|Hn'];
        try done.
      * exfalso. apply Hn', Hsnoc. by left.
      * exfalso. apply Hsnoc in Hi' as [?| ->]; [done|]. by apply Hn, Hseen.
    + exists no. split_and!; [done|done|].
      intros w'. rewrite Hin, Hsnoc. split.
      * intros (? & ? & ?). split_and!; [by left|done|done].
      * intros ([?| ->] & Hg & Hd); split_and!; try done. by apply Hseen.
    + exists nc. split_and!; [done|done|].
      intros w'. rewrite Hinc, Hsnoc. split.
      * intros (? & ?). split; [by left|done].
      * intros ([?| ->] & Hg); split; try done. by apply Hseen.
    + by rewrite fmap_app, Ht.
    + intros w' ph [Hin'|[= -> ->]%list_elem_of_singleton]%elem_of_app; [by apply Hp|done].
  - (* the cache does not have it: the dictionary is asked *)
    rewrite (to_phonemes_word_miss cmudict st w Hw).
    assert (phoneme_cache g !! w = None ∧ w ∉ ws) as [Hg Hnew].
    { pose proof (Hc w) as Hcw. rewrite Hw in Hcw.
      destruct (phoneme_cache g !! w); [done|]. by case_decide. }
    split_and!; simpl.
    + intros w'. destruct (decide (w = w')) as [<-|Hne].
      * rewrite lookup_insert_eq, Hg. rewrite decide_True; [done|].
        apply Hsnoc. by right.
      * rewrite lookup_insert_ne by done. rewrite Hc.
        destruct (phoneme_cache g !! w'); [done|].
        destruct (decide (w' ∈ ws)) as [Hi|Hn], (decide (w' ∈ ws ++ [w])) as [Hi'|Hn'];
          try done.
        -- exfalso. apply Hn', Hsnoc. by left.
        -- exfalso. apply Hsnoc in Hi' as [?| ->]; done.
    + exists (no ++ match cmudict w with [] => [w] | _ => [] end).
      split_and!.
      * by rewrite Ho, (assoc_L (++)).
      * destruct (cmudict w); [|by rewrite app_nil_r].
        apply NoDup_app. split_and!; [done| |apply NoDup_singleton].
        intros x Hx ->%list_elem_of_singleton. apply Hin in Hx. tauto.
      * intros w'. rewrite elem_of_app, Hin, Hsnoc.
        destruct (cmudict w) eqn:Hd.
        -- rewrite list_elem_of_singleton. split.
           ++ intros [(? & ? & ?)| ->]; split_and!; try done; [by left|by right].
           ++ intros ([?| ->] & ? & ?); [left|right]; done.
        -- split.
           ++ intros [(? & ? & ?)|[]%elem_of_nil]. split_and!; [by left|done|done].
           ++ intros ([?| ->] & ? & Hd'); [by left|congruence].
    + exists (nc ++ [w]). split_and!.
      * by rewrite Hcalls, (assoc_L (++)).
      * apply NoDup_app. split_and!; [done| |apply NoDup_singleton].
        intros x Hx ->%list_elem_of_singleton. apply Hinc in Hx. tauto.
      * intros w'. rewrite elem_of_app, Hinc, list_elem_of_singleton, Hsnoc.
        split.
        -- intros [(? & ?)| ->]; split; try done; [by left|by right].
        -- intros ([?| ->] & ?); [left|right]; done.
    + by rewrite fmap_app, Ht.
    + intros w' ph [Hin'|[= -> ->]%list_elem_of_singleton]%elem_of_app.
      * assert (w ≠ w').
        { intros <-. apply Hnew. rewrite <- Ht. apply list_elem_of_fmap.
          by exists (w, ph). }
        rewrite lookup_insert_ne by done. by apply Hp.
      * by rewrite lookup_insert_eq.
Qed.

Lemma transcribed_foldl g oovs0 ws0 st ws :
  transcribed cmudict g oovs0 ws0 st →
  transcribed cmudict g oovs0 (ws0 ++ ws) (foldl (to_phonemes_word cmudict) st ws).
Proof.
  revert ws0 st. induction ws as [|w ws IH]; intros ws0 st Hst; simpl.
  - by rewrite app_nil_r.
  - rewrite cons_middle, (assoc_L (++)). by apply IH, transcribed_step.
Qed.

Lemma transcribed_to_phonemes text g oovs0 :
  transcribed cmudict g oovs0 (split SPACE text) (to_phonemes cmudict text g oovs0).
Proof. apply (transcribed_foldl g oovs0 []), transcribed_start. Qed.
End transcribed_facts.

(** A passage and the state of the loop of [__to_phonemes] it was built
    from. *)
Lemma Passage_transcribed U cmudict fs input nm ign g P g' :
  Passage__init__ U cmudict fs input nm ign g = (Returned P, g') →
  ∃ st, transcribed cmudict g [] (split SPACE (text P)) st ∧
        phon_trans P = tr_transcript st ∧ oovs P = tr_oovs st ∧ g' = tr_globals st.
Proof.
  intros (_ & Ht & Ho & Hg & Htext & _)%Passage__init__Returned.
  eexists. split; [|done]. rewrite Htext. apply transcribed_to_phonemes.
Qed.

(** X1: the transcription of a passage pairs the tokens of its cleaned
    text, in their order and with repetitions, and [n_words] is one more
    than the number of blanks of the cleaned text (so never 0). *)
Theorem passage_words_are_tokens (U : Unicode) (cmudict : str → list (list str))
    (fs : filesystem) (input : str) (nm : option str) (ign : bool) (g g' : globals)
    (P : Passage) :
  Passage__init__ U cmudict fs input nm ign g = (Returned P, g') →
  (phon_trans P).*1 = split SPACE (text P) ∧
  n_words P = S (length (filter (λ c, c = SPACE) (text P))).
Proof.
  intros HP.
  destruct (Passage_transcribed _ _ _ _ _ _ _ _ _ HP) as (st & Hst & Ht & _).
  destruct Hst as (_ & _ & _ & Hw & _).
  apply Passage__init__Returned in HP as (_ & Ht' & _ & _ & _ & _ & Hn).
  split; [by rewrite Ht|].
  rewrite Hn, <- Ht', <- (length_fmap fst), Ht, Hw. apply length_split.
Qed.

Lemma passage_words_are_tokens_witness :
  ∃ P g',
    Passage__init__ AsciiRange.tables stub_cmudict ∅
      (lit "The cat sat.") None true fresh_globals = (Returned P, g') ∧
    (phon_trans P).*1 = split SPACE (text P) ∧
    n_words P = S (length (filter (λ c, c = SPACE) (text P))).
Proof.
  eexists _, _. split; [vm_compute; reflexivity|].
  eapply (passage_words_are_tokens AsciiRange.tables stub_cmudict ∅
            (lit "The cat sat.") None true fresh_globals).
  vm_compute; reflexivity.
Defined.

Lemma cache_sound_fresh cmudict : cache_sound cmudict fresh_globals.
Proof. intros w v Hw. simpl in Hw. by rewrite lookup_empty in Hw. Qed.

Lemma transcribed_cache_sound cmudict g oovs0 ws st :
  cache_sound cmudict g → transcribed cmudict g oovs0 ws st →
  cache_sound cmudict (tr_globals st).
Proof.
  intros Hg (Hc & _) w v Hw. rewrite Hc in Hw.
  destruct (phoneme_cache g !! w) eqn:Hgw; [injection Hw as <-; by apply Hg|].
  case_decide; congruence.
Qed.

Lemma transcribe_all_cache_sound cmudict texts g :
  cache_sound cmudict g → cache_sound cmudict (transcribe_all cmudict texts g).
Proof.
  unfold transcribe_all. revert g.
  induction texts as [|t ts IH]; intros g Hg; simpl; [done|].
  apply IH. eapply transcribed_cache_sound; [exact Hg|].
  apply transcribed_to_phonemes.
Qed.

(** X2: when every entry of the cache is the dictionary's answer for its
    word, a passage pairs every word with the first variant that the
    dictionary has for it (the empty sequence when it has none), and the
    cache it leaves is again of that kind; the cache of a process that only
    constructs passages always is. *)
Theorem transcription_uses_first_variant (U : Unicode) (cmudict : str → list (list str))
    (fs : filesystem) (input : str) (nm : option str) (ign : bool) (g g' : globals)
    (P : Passage) :
  cache_sound cmudict g →
  Passage__init__ U cmudict fs input nm ign g = (Returned P, g') →
  (∀ w ph, (w, ph) ∈ phon_trans P → ph = first_variant (cmudict w)) ∧
  cache_sound cmudict g' ∧
  (∀ texts, cache_sound cmudict (transcribe_all cmudict texts fresh_globals)).
Proof.
  intros Hg HP.
  destruct (Passage_transcribed _ _ _ _ _ _ _ _ _ HP) as (st & Hst & Ht & _ & Hg').
  assert (cache_sound cmudict g') as Hs.
  { rewrite Hg'. by eapply transcribed_cache_sound. }
  destruct Hst as (Hc & _ & _ & _ & Hp).
  split_and!; [|done|].
  - intros w ph Hin. apply Hs. rewrite Hg'. apply Hp. by rewrite <- Ht.
  - intros texts. apply transcribe_all_cache_sound, cache_sound_fresh.
Qed.

Lemma transcription_uses_first_variant_witness :
  ∃ P g',
    cache_sound stub_cmudict fresh_globals ∧
    Passage__init__ AsciiRange.tables stub_cmudict ∅
      (lit "The cat sat.") None true fresh_globals = (Returned P, g') ∧
    (∀ w ph, (w, ph) ∈ phon_trans P → ph = first_variant (stub_cmudict w)) ∧
    cache_sound stub_cmudict g' ∧
    (∀ texts, cache_sound stub_cmudict (transcribe_all stub_cmudict texts fresh_globals)).
Proof.
  pose proof (cache_sound_fresh stub_cmudict) as Hf.
  eexists _, _. split; [exact Hf|].
  split; [vm_compute; reflexivity|].
  eapply (transcription_uses_first_variant AsciiRange.tables stub_cmudict ∅
            (lit "The cat sat.") None true fresh_globals); [exact Hf|].
  vm_compute; reflexivity.
Defined.

(** X3: the OOV list of a passage has no word twice, and a word is in it
    exactly when it is a token of the cleaned text that was not in the
    cache when construction began and for which the dictionary has no
    variant. *)
Theorem passage_oovs_characterised (U : Unicode) (cmudict : str → list (list str))
    (fs : filesystem) (input : str) (nm : option str) (ign : bool) (g g' : globals)
    (P : Passage) :
  Passage__init__ U cmudict fs input nm ign g = (Returned P, g') →
  NoDup (oovs P) ∧
  ∀ w, w ∈ oovs P ↔
       w ∈ split SPACE (text P) ∧ phoneme_cache g !! w = None ∧ cmudict w = [].
Proof.
  intros HP.
  destruct (Passage_transcribed _ _ _ _ _ _ _ _ _ HP) as (st & Hst & _ & Ho & _).
  destruct Hst as (_ & (new & Hnew & Hnd & Hin) & _).
  simpl in Hnew. rewrite Ho, Hnew. done.
Qed.

Lemma passage_oovs_characterised_witness :
  ∃ P g',
    Passage__init__ AsciiRange.tables stub_cmudict ∅
      (lit "xyzzy the plugh xyzzy") None true fresh_globals = (Returned P, g') ∧
    oovs P = [lit "xyzzy"; lit "plugh"] ∧
    NoDup (oovs P) ∧
    ∀ w, w ∈ oovs P ↔
         w ∈ split SPACE (text P) ∧ phoneme_cache fresh_globals !! w = None ∧
         stub_cmudict w = [].
Proof.
  eexists _, _. split; [vm_compute; reflexivity|].
  split; [vm_compute; reflexivity|].
  eapply (passage_oovs_characterised AsciiRange.tables stub_cmudict ∅
            (lit "xyzzy the plugh xyzzy") None true fresh_globals).
  vm_compute; reflexivity.
Defined.

(** X4: constructing a passage keeps every entry of the cache, adds an
    entry for each token of the cleaned text that had none, and queries the
    dictionary once for each such token and for no other word. *)
Theorem passage_extends_cache (U : Unicode) (cmudict : str → list (list str))
    (fs : filesystem) (input : str) (nm : option str) (ign : bool) (g g' : globals)
    (P : Passage) :
  Passage__init__ U cmudict fs input nm ign g = (Returned P, g') →
  (∀ w v, phoneme_cache g !! w = Some v → phoneme_cache g' !! w = Some v) ∧
  dom (phoneme_cache g') = dom (phoneme_cache g) ∪ list_to_set (split SPACE (text P)) ∧
  ∃ new, cmudict_calls g' = cmudict_calls g ++ new ∧ NoDup new ∧
         ∀ w, w ∈ new ↔ w ∈ split SPACE (text P) ∧ phoneme_cache g !! w = None.
Proof.
  intros HP.
  destruct (Passage_transcribed _ _ _ _ _ _ _ _ _ HP) as (st & Hst & _ & _ & Hg').
  destruct Hst as (Hc & _ & Hcalls & _). rewrite Hg'. split_and!; [| |done].
  - intros w v Hw. by rewrite Hc, Hw.
  - apply set_eq. intros w.
    rewrite elem_of_union, !elem_of_dom, elem_of_list_to_set, Hc.
    destruct (phoneme_cache g !! w) eqn:Hw.
    + split; [by left|eauto].
    + case_decide.
      * split; [by right|eauto].
      * split; [by intros [? ?]|]. intros [[? ?]|?]; done.
Qed.

Lemma passage_extends_cache_witness :
  ∃ P g',
    Passage__init__ AsciiRange.tables stub_cmudict ∅
      (lit "The cat sat.") None true fresh_globals = (Returned P, g') ∧
    (∀ w v, phoneme_cache fresh_globals !! w = Some v → phoneme_cache g' !! w = Some v) ∧
    dom (phoneme_cache g') =
      dom (phoneme_cache fresh_globals) ∪ list_to_set (split SPACE (text P)) ∧
    ∃ new, cmudict_calls g' = cmudict_calls fresh_globals ++ new ∧ NoDup new ∧
           ∀ w, w ∈ new ↔ w ∈ split SPACE (text P) ∧ phoneme_cache fresh_globals !! w = None.
Proof.
  eexists _, _. split; [vm_compute; reflexivity|].
  eapply (passage_extends_cache AsciiRange.tables stub_cmudict ∅
            (lit "The cat sat.") None true fresh_globals).
  vm_compute; reflexivity.
Defined.

Lemma transcript_determined (f : str → option (list str)) (l1 l2 : list (str * list str)) :
  l1.*1 = l2.*1 →
  (∀ w ph, (w, ph) ∈ l1 → f w = Some ph) →
  (∀ w ph, (w, ph) ∈ l2 → f w = Some ph) →
  l1 = l2.
Proof.
  revert l2. induction l1 as [|[w ph] l1 IH]; intros [|[w' ph'] l2]; try done.
  rewrite !fmap_cons. intros [= <- Hfst] H1 H2.
  assert (ph = ph') as <-.
  { pose proof (H1 w ph (list_elem_of_here _ _)) as E1.
    pose proof (H2 w ph' (list_elem_of_here _ _)) as E2. congruence. }
  f_equal. apply IH; [done| |].
  - intros w0 ph0 Hin. apply H1. by right.
  - intros w0 ph0 Hin. apply H2. by right.
Qed.

(** X5: constructing a passage a second time from the same arguments, in
    the state that the first construction left, changes nothing in the
    module's state (so queries the dictionary for no word) and gives the
    same name, text, transcription and counts, but an empty OOV list. *)
Theorem second_construction_is_silent (U : Unicode) (cmudict : str → list (list str))
    (fs : filesystem) (input : str) (nm : option str) (ign : bool) (g g' : globals)
    (P : Passage) :
  Passage__init__ U cmudict fs input nm ign g = (Returned P, g') →
  ∃ P', Passage__init__ U cmudict fs input nm ign g' = (Returned P', g') ∧
        oovs P' = [] ∧
        name P' = name P ∧ text P' = text P ∧ phon_trans P' = phon_trans P ∧
        phoneme_count P' = phoneme_count P ∧
        phoneme_count_by_pos P' = phoneme_count_by_pos P.
Proof.
  intros HP.
  destruct (Passage__init__returns U cmudict fs input nm ign g') as (P' & g'' & HP').
  destruct (Passage_transcribed _ _ _ _ _ _ _ _ _ HP) as (st & Hst & Ht & Ho & Hg').
  destruct (Passage_transcribed _ _ _ _ _ _ _ _ _ HP') as (st' & Hst' & Ht' & Ho' & Hg'').
  pose proof (Passage__init__Returned _ _ _ _ _ _ _ _ _ HP) as (Hs & _ & _ & _ & Htext & Hname & _).
  pose proof (Passage__init__Returned _ _ _ _ _ _ _ _ _ HP') as (Hs' & _ & _ & _ & Htext' & Hname' & _).
  assert (text P' = text P) as Etext by congruence.
  rewrite Etext in Hst'.
  destruct Hst as (Hc & _ & _ & Hw & Hp).
  destruct Hst' as (Hc' & (no & Hno & _ & Hino) & (nc & Hnc & _ & Hinc) & Hw' & Hp').
  (* every token is in the cache that the first construction left *)
  assert (∀ w, w ∈ split SPACE (text P) → is_Some (phoneme_cache g' !! w)) as Hall.
  { intros w Hin. rewrite Hg', Hc. destruct (phoneme_cache g !! w); [eauto|].
    rewrite decide_True by done. eauto. }
  assert (no = []) as ->.
  { apply elem_of_nil_inv. intros w (Hin & Hn & _)%Hino.
    destruct (Hall w Hin) as [? ?]. congruence. }
  assert (nc = []) as ->.
  { apply elem_of_nil_inv. intros w (Hin & Hn)%Hinc.
    destruct (Hall w Hin) as [? ?]. congruence. }
  assert (phoneme_cache g'' = phoneme_cache g') as Ecache.
  { apply map_eq. intros w. rewrite Hg'' at 1. rewrite Hc'.
    destruct (phoneme_cache g' !! w) eqn:Hw0; [done|].
    case_decide as Hin; [|done]. destruct (Hall w Hin) as [? ?]. congruence. }
  assert (g'' = g') as ->.
  { rewrite app_nil_r in Hnc. rewrite <- Hg'' in Hnc.
    destruct g'', g'. simpl in *. congruence. }
  assert (phon_trans P' = phon_trans P) as Etrans.
  { apply (transcript_determined (λ w, phoneme_cache g' !! w)).
    - rewrite Ht, Ht'. congruence.
    - intros w ph Hin. rewrite Hg'' at 1. apply Hp'. by rewrite <- Ht'.
    - intros w ph Hin. rewrite Hg' at 1. apply Hp. by rewrite <- Ht.  }
  exists P'. split_and!; try done.
  - rewrite Ho', Hno. done.
  - congruence.
  - assert ((phoneme_count P', phoneme_count_by_pos P') =
            (phoneme_count P, phoneme_count_by_pos P)) as E; [|congruence].
    rewrite Hs, Hs'. destruct (Passage__init__Returned _ _ _ _ _ _ _ _ _ HP) as (_ & <- & _).
    destruct (Passage__init__Returned _ _ _ _ _ _ _ _ _ HP') as (_ & <- & _).
    by rewrite Etrans.
  - assert ((phoneme_count P', phoneme_count_by_pos P') =
            (phoneme_count P, phoneme_count_by_pos P)) as E; [|congruence].
    rewrite Hs, Hs'. destruct (Passage__init__Returned _ _ _ _ _ _ _ _ _ HP) as (_ & <- & _).
    destruct (Passage__init__Returned _ _ _ _ _ _ _ _ _ HP') as (_ & <- & _).
    by rewrite Etrans.
Qed.

Lemma second_construction_is_silent_witness :
  ∃ P g',
    Passage__init__ AsciiRange.tables stub_cmudict ∅
      (lit "xyzzy the") None true fresh_globals = (Returned P, g') ∧
    oovs P = [lit "xyzzy"] ∧
    ∃ P', Passage__init__ AsciiRange.tables stub_cmudict ∅
            (lit "xyzzy the") None true g' = (Returned P', g') ∧
          oovs P' = [] ∧
          name P' = name P ∧ text P' = text P ∧ phon_trans P' = phon_trans P ∧
          phoneme_count P' = phoneme_count P ∧
          phoneme_count_by_pos P' = phoneme_count_by_pos P.
Proof.
  eexists _, _. split; [vm_compute; reflexivity|].
  split; [vm_compute; reflexivity|].
  eapply (second_construction_is_silent AsciiRange.tables stub_cmudict ∅
            (lit "xyzzy the") None true fresh_globals).
  vm_compute; reflexivity.
Defined.


(** ** Sums over the tables *)

Lemma sum_values_insert_None (m : gmap str nat) q x :
  m !! q = None → sum_list (map_to_list (<[q:=x]> m)).*2 = x + sum_list (map_to_list m).*2.
Proof. intros Hq. by rewrite (map_to_list_insert m q x Hq). Qed.

Lemma sum_values_insert (m : gmap str nat) q x y :
  m !! q = Some y →
  sum_list (map_to_list (<[q:=x]> m)).*2 + y = sum_list (map_to_list m).*2 + x.
Proof.
  intros Hq. rewrite <- (insert_delete_id m q y Hq) at 2.
  rewrite <- (insert_delete_eq m q x).
  rewrite !sum_values_insert_None by apply lookup_delete_eq. lia.
Qed.

Lemma sum_values_zero (m : gmap str nat) :
  (∀ k, default 0 (m !! k) = 0) → sum_list (map_to_list m).*2 = 0.
Proof.
  intros Hz.
  assert (Forall (λ kv : str * nat, kv.2 = 0) (map_to_list m)) as HF.
  { apply Forall_forall. intros [k v] Hin%elem_of_map_to_list.
    pose proof (Hz k) as Hk. rewrite Hin in Hk. done. }
  revert HF. generalize (map_to_list m). intros l HF.
  induction HF as [|[k v] l Hv HF IH]; [done|].
  rewrite fmap_cons. simpl in *. by rewrite Hv, IH.
Qed.

(** A table of numbers whose entry for each key is the number of the
    elements of [occs] with that key that satisfy [Q] sums to the number of
    elements that satisfy [Q]. *)
Lemma sum_values_by_key {A} (Q : str * A → Prop) `{!∀ o, Decision (Q o)}
    (occs : list (str * A)) (m : gmap str nat) :
  (∀ k, default 0 (m !! k) = length (filter (λ o, o.1 = k ∧ Q o) occs)) →
  sum_list (map_to_list m).*2 = length (filter Q occs).
Proof.
  revert m. induction occs as [|[q a] occs IH]; intros m Hm.
  - apply sum_values_zero. intros k. by rewrite Hm.
  - rewrite filter_cons. destruct (decide (Q (q, a))) as [Ha|Ha]; simpl.
    + pose proof (Hm q) as Hq. rewrite filter_cons in Hq. simpl in Hq.
      rewrite decide_True in Hq by done. simpl in Hq.
      destruct (m !! q) as [y|] eqn:Hy; [|done]. simpl in Hq.
      pose proof (sum_values_insert m q (pred y) y Hy) as Hs.
      rewrite (IH (<[q:=pred y]> m)) in Hs; [lia|].
      intros k. destruct (decide (q = k)) as [<-|Hne].
      * rewrite lookup_insert_eq. simpl. lia.
      * rewrite lookup_insert_ne by done. rewrite Hm, filter_cons. simpl.
        rewrite decide_False; [done|]. by intros [? _].
    + apply IH. intros k. rewrite Hm, filter_cons. simpl.
      rewrite decide_False; [done|]. by intros [_ ?].
Qed.

Lemma length_filter_ext {A} (P Q : A → Prop) `{!∀ a, Decision (P a)} `{!∀ a, Decision (Q a)}
    (l : list A) :
  (∀ a, P a ↔ Q a) → length (filter P l) = length (filter Q l).
Proof.
  intros HPQ. induction l as [|a l IH]; [done|].
  rewrite !filter_cons. pose proof (HPQ a) as [H1 H2].
  destruct (decide (P a)), (decide (Q a)); simpl; try lia; exfalso; auto.
Qed.

Section counter_sums.
Context (U : Unicode) (ign : bool).

Lemma occurrences_from_fst n i phs :
  (occurrences_from U ign n i phs).*1 = counted_symbol U ign <$> phs.
Proof.
  unfold occurrences_from. revert i. induction phs as [|p phs IH]; intros i; [done|].
  rewrite imap_cons, !fmap_cons. simpl. f_equal.
  rewrite <- (IH (S i)). f_equal. apply imap_ext. intros j x _. simpl.
  do 2 f_equal. lia.
Qed.

Lemma occurrences_fst phon_trans :
  (occurrences U ign phon_trans).*1 = counted_symbol U ign <$> phonemes_of phon_trans.
Proof.
  unfold occurrences, phonemes_of.
  induction phon_trans as [|wp tr IH]; [done|].
  rewrite !bind_cons, !fmap_app, IH. by rewrite occurrences_from_fst.
Qed.

Lemma occ_total_pos k occs : occ_total k occs ≠ 0 ↔ k ∈ occs.*1.
Proof.
  unfold occ_total. induction occs as [|[q a] occs IH].
  - split; [done|by intros ?%elem_of_nil].
  - rewrite filter_cons, fmap_cons, elem_of_cons. simpl.
    destruct (decide (q = k)) as [->|Hne]; simpl.
    + split; [by left|done].
    + rewrite IH. split; [by right|]. by intros [?|?].
Qed.

(** The total of [phoneme_count] is the number of occurrences. *)
Lemma tallies_sum_total occs acc :
  tallies occs acc → sum_list (map_to_list acc.1).*2 = length occs.
Proof.
  intros HT.
  rewrite (sum_values_by_key (λ _ : str * option position, True) occs).
  - clear. induction occs as [|o occs IH]; [done|].
    rewrite filter_cons. rewrite decide_True by done. simpl. by rewrite IH.
  - intros k. destruct (HT k) as [-> _].
    transitivity (occ_total k occs); [by case_decide|].
    unfold occ_total. apply length_filter_ext. intros o. tauto.
Qed.

(** The counts at one position sum to the number of occurrences at it. *)
Lemma tallies_sum_position pos occs acc :
  tallies occs acc →
  position_total pos acc.2 = length (filter (λ o, o.2 = Some pos) occs).
Proof.
  intros HT. unfold position_total.
  transitivity (sum_list (map_to_list ((λ v, default 0 (v !! bucket pos)) <$> acc.2)).*2).
  { rewrite map_to_list_fmap. rewrite <- !list_fmap_compose. done. }
  apply (sum_values_by_key (λ o : str * option position, o.2 = Some pos)).
  - intros k. rewrite lookup_fmap. destruct (HT k) as [_ ->].
    pose proof (occ_at_le_total k occs) as Hle.
    transitivity (occ_at pos k occs).
    + case_decide; simpl; destruct pos; simpl; lia.
    + unfold occ_at. apply length_filter_ext. intros [q a]. simpl.
      split; [by intros [= -> ->]|by intros [-> ->]].
Qed.
End counter_sums.

Section position_sums.
Context (U : Unicode) (ign : bool).

Lemma occurrences_from_cons n i p phs :
  occurrences_from U ign n i (p :: phs) =
  (counted_symbol U ign p, spec_position n i) :: occurrences_from U ign n (S i) phs.
Proof.
  unfold occurrences_from. rewrite imap_cons, Nat.add_0_r. f_equal.
  apply imap_ext. intros j x _. simpl. do 2 f_equal. lia.
Qed.

Lemma phonemes_of_cons wp phon_trans :
  phonemes_of (wp :: phon_trans) = wp.2 ++ phonemes_of phon_trans.
Proof. unfold phonemes_of. by rewrite bind_cons. Qed.

Lemma occurrences_cons wp phon_trans :
  occurrences U ign (wp :: phon_trans) =
  occurrences_from U ign (length wp.2) 0 wp.2 ++ occurrences U ign phon_trans.
Proof. unfold occurrences. by rewrite bind_cons. Qed.

Lemma spec_position_Initial n i : spec_position n i = Some Initial ↔ 2 ≤ n ∧ i = 0.
Proof.
  unfold spec_position.
  repeat case_bool_decide; split; intros; first [done | lia | exfalso; lia].
Qed.

Lemma spec_position_Final n i :
  spec_position n i = Some Final ↔ 2 ≤ n ∧ i ≠ 0 ∧ i = n - 1.
Proof.
  unfold spec_position.
  repeat case_bool_decide; split; intros; first [done | lia | exfalso; lia].
Qed.

Lemma spec_position_None n i : spec_position n i = None ↔ n < 2.
Proof.
  unfold spec_position.
  repeat case_bool_decide; split; intros; first [done | lia | exfalso; lia].
Qed.

Lemma count_initial_from n i phs :
  length (filter (λ o, o.2 = Some Initial) (occurrences_from U ign n i phs)) =
  if bool_decide (2 ≤ n ∧ i = 0 ∧ phs ≠ []) then 1 else 0.
Proof.
  revert i. induction phs as [|p phs IH]; intros i.
  - simpl. rewrite bool_decide_eq_false_2; [done|]. by intros (_ & _ & ?).
  - rewrite occurrences_from_cons, filter_cons. simpl.
    pose proof (IH (S i)) as IH'.
    rewrite (bool_decide_eq_false_2 (2 ≤ n ∧ S i = 0 ∧ _)) in IH'
      by (intros (_ & ? & _); lia).
    destruct (decide (spec_position n i = Some Initial)) as [H|H];
      rewrite spec_position_Initial in H; simpl; rewrite IH'.
    + rewrite bool_decide_eq_true_2; [done|]. by destruct H.
    + rewrite bool_decide_eq_false_2; [done|]. intros (? & ? & _). by apply H.
Qed.

Lemma count_final_from n i phs :
  i + length phs = n →
  length (filter (λ o, o.2 = Some Final) (occurrences_from U ign n i phs)) =
  if bool_decide (2 ≤ n ∧ phs ≠ []) then 1 else 0.
Proof.
  revert i. induction phs as [|p phs IH]; intros i Hn.
  - simpl. rewrite bool_decide_eq_false_2; [done|]. by intros (_ & ?).
  - rewrite occurrences_from_cons, filter_cons. simpl in *.
    pose proof (IH (S i) ltac:(lia)) as IH'.
    destruct (decide (spec_position n i = Some Final)) as [H|H];
      rewrite spec_position_Final in H; simpl; rewrite IH'.
    + (* the last index: nothing is left *)
      assert (phs = []) as -> by (apply length_zero_iff_nil; lia).
      rewrite bool_decide_eq_false_2 by (by intros [_ ?]).
      rewrite bool_decide_eq_true_2; [done|]. split; [lia|done].
    + destruct phs as [|p' phs].
      * (* one phoneme left, and not the last index of a long word *)
        simpl in *. rewrite bool_decide_eq_false_2 by (by intros [_ ?]).
        rewrite bool_decide_eq_false_2; [done|]. intros [? _]. apply H. lia.
      * simpl in *. rewrite !bool_decide_eq_true_2; [done| |]; split; (lia || done).
Qed.

Lemma count_none_from n i phs :
  length (filter (λ o, o.2 = None) (occurrences_from U ign n i phs)) =
  if bool_decide (2 ≤ n) then 0 else length phs.
Proof.
  revert i. induction phs as [|p phs IH]; intros i.
  - simpl. by case_bool_decide.
  - rewrite occurrences_from_cons, filter_cons. simpl.
    pose proof (IH (S i)) as IH'.
    destruct (decide (spec_position n i = None)) as [H|H];
      rewrite spec_position_None in H; simpl; rewrite IH';
      case_bool_decide; first [done | lia].
Qed.

Lemma length_occurrences_from n i phs :
  length (occurrences_from U ign n i phs) = length phs.
Proof. unfold occurrences_from. apply length_imap. Qed.

Lemma length_by_position (occs : list (str * option position)) :
  length occs =
  length (filter (λ o, o.2 = Some Initial) occs) +
  length (filter (λ o, o.2 = Some Medial) occs) +
  length (filter (λ o, o.2 = Some Final) occs) +
  length (filter (λ o, o.2 = None) occs).
Proof.
  induction occs as [|[q [[]|]] occs IH]; [done|..];
    rewrite !filter_cons; simpl;
    repeat (case_decide; try done); simpl; lia.
Qed.

Lemma length_occurrences phon_trans :
  length (occurrences U ign phon_trans) = length (phonemes_of phon_trans).
Proof.
  rewrite <- (length_fmap fst), occurrences_fst. apply length_fmap.
Qed.

(** The occurrences at the first and at the last position are one for each
    variant of at least two phonemes; the occurrences with no position are
    the phonemes of the shorter variants. *)
Lemma count_positions phon_trans :
  let occs := occurrences U ign phon_trans in
  let long := filter (λ wp, 2 ≤ length wp.2) phon_trans in
  length (filter (λ o, o.2 = Some Initial) occs) = length long ∧
  length (filter (λ o, o.2 = Some Final) occs) = length long ∧
  length (filter (λ o, o.2 = None) occs) + length (phonemes_of long)
    = length (phonemes_of phon_trans).
Proof.
  simpl. induction phon_trans as [|[w phs] tr (IH1 & IH2 & IH3)]; [done|].
  rewrite occurrences_cons, !filter_app, !length_app, phonemes_of_cons, length_app.
  cbn [snd]. rewrite count_initial_from, (count_final_from _ 0) by done.
  rewrite count_none_from, IH1, IH2, filter_cons. cbn [snd].
  assert (2 ≤ length phs → phs ≠ []) as Hne by (intros ? ->; simpl in *; lia).
  destruct (decide (2 ≤ length phs)) as [Hl|Hl].
  - rewrite phonemes_of_cons, length_app. cbn [snd length].
    rewrite !bool_decide_eq_true_2 by auto. lia.
  - rewrite !bool_decide_eq_false_2 by (try done; by intros [? _]). lia.
Qed.
End position_sums.

(** ** Totals of a passage *)

Lemma Passage__init__totals U cmudict fs input nm ign g P g' :
  Passage__init__ U cmudict fs input nm ign g = (Returned P, g') →
  n_phonemes P = sum_list (map_to_list (phoneme_count P)).*2 ∧
  n_unique_phonemes P = size (phoneme_count P) ∧
  ignore_stress P = ign.
Proof.
  unfold Passage__init__. destruct (read_input_text fs nm input) as [name' text'].
  destruct (get_phoneme_stats _ _ _) as [pc pbp].
  destruct (check_counts pc pbp); [|done].
  intros [= <- <-]. simpl. done.
Qed.

(** X6: [n_phonemes] is the number of phonemes of the transcription, over
    all its variants, and [n_unique_phonemes] is the number of distinct
    symbols among them, as they are counted (with or without stress). *)
Theorem passage_totals (U : Unicode) (cmudict : str → list (list str))
    (fs : filesystem) (input : str) (nm : option str) (ign : bool) (g g' : globals)
    (P : Passage) :
  Passage__init__ U cmudict fs input nm ign g = (Returned P, g') →
  n_phonemes P = length (phonemes_of (phon_trans P)) ∧
  n_unique_phonemes P =
    size (list_to_set (C := gset str)
            (counted_symbol U ign <$> phonemes_of (phon_trans P))).
Proof.
  intros HP. pose proof (Passage_tallies _ _ _ _ _ _ _ _ _ HP) as HT.
  destruct (Passage__init__totals _ _ _ _ _ _ _ _ _ HP) as (Hn & Hu & _).
  split.
  - rewrite Hn. pose proof (tallies_sum_total _ _ HT) as Hs. simpl in Hs.
    rewrite Hs. apply length_occurrences.
  - rewrite Hu, <- size_dom. f_equal. apply set_eq. intros k.
    rewrite elem_of_dom, elem_of_list_to_set, <- occurrences_fst, <- occ_total_pos.
    destruct (HT k) as [Hk _]. simpl in Hk. rewrite Hk.
    case_decide; split; intros H'; first [done | by destruct H' | eauto].
Qed.

(** X7: over all symbols, the counts at the initial position sum to the
    number of words with at least two phonemes, and so do the counts at the
    final position; the counts at the medial position sum to what is left
    of the phonemes of those words. *)
Theorem positional_totals (U : Unicode) (cmudict : str → list (list str))
    (fs : filesystem) (input : str) (nm : option str) (ign : bool) (g g' : globals)
    (P : Passage) :
  Passage__init__ U cmudict fs input nm ign g = (Returned P, g') →
  let long := filter (λ wp, 2 ≤ length wp.2) (phon_trans P) in
  position_total Initial (phoneme_count_by_pos P) = length long ∧
  position_total Final (phoneme_count_by_pos P) = length long ∧
  position_total Medial (phoneme_count_by_pos P) + 2 * length long =
    length (phonemes_of long).
Proof.
  intros HP long. pose proof (Passage_tallies _ _ _ _ _ _ _ _ _ HP) as HT.
  pose proof (tallies_sum_position Initial _ _ HT) as HI.
  pose proof (tallies_sum_position Medial _ _ HT) as HM.
  pose proof (tallies_sum_position Final _ _ HT) as HF.
  simpl in HI, HM, HF.
  destruct (count_positions U ign (phon_trans P)) as (CI & CF & CN).
  pose proof (length_by_position (occurrences U ign (phon_trans P))) as HL.
  rewrite length_occurrences in HL.
  fold long in CI, CF, CN. split_and!; lia.
Qed.

Lemma passage_totals_witness :
  ∃ P g',
    Passage__init__ AsciiRange.tables stub_cmudict ∅
      (lit "The cat sat.") None true fresh_globals = (Returned P, g') ∧
    n_phonemes P = length (phonemes_of (phon_trans P)) ∧
    n_unique_phonemes P =
      size (list_to_set (C := gset str)
              (counted_symbol AsciiRange.tables true <$> phonemes_of (phon_trans P))).
Proof.
  eexists _, _. split; [vm_compute; reflexivity|].
  eapply (passage_totals AsciiRange.tables stub_cmudict ∅
            (lit "The cat sat.") None true fresh_globals).
  vm_compute; reflexivity.
Defined.

Lemma positional_totals_witness :
  ∃ P g',
    Passage__init__ AsciiRange.tables stub_cmudict ∅
      (lit "a cat sat") None true fresh_globals = (Returned P, g') ∧
    let long := filter (λ wp, 2 ≤ length wp.2) (phon_trans P) in
    position_total Initial (phoneme_count_by_pos P) = length long ∧
    position_total Final (phoneme_count_by_pos P) = length long ∧
    position_total Medial (phoneme_count_by_pos P) + 2 * length long =
      length (phonemes_of long).
Proof.
  eexists _, _. split; [vm_compute; reflexivity|].
  eapply (positional_totals AsciiRange.tables stub_cmudict ∅
            (lit "a cat sat") None true fresh_globals).
  vm_compute; reflexivity.
Defined.

(** ** What the counts depend on *)

Lemma tallies_unique occs acc acc' : tallies occs acc → tallies occs acc' → acc = acc'.
Proof.
  destruct acc as [pc pbp], acc' as [pc' pbp']. intros H H'.
  f_equal; apply map_eq; intros k; destruct (H k) as [H1 H2], (H' k) as [H1' H2'];
    simpl in *; congruence.
Qed.

Lemma length_filter_Permutation {A} (Q : A → Prop) `{!∀ a, Decision (Q a)}
    (l l' : list A) :
  l ≡ₚ l' → length (filter Q l) = length (filter Q l').
Proof. intros Hp. by rewrite Hp. Qed.

Lemma tallies_Permutation occs occs' acc :
  occs ≡ₚ occs' → tallies occs acc → tallies occs' acc.
Proof.
  intros Hp H k. unfold occ_total, occ_at.
  rewrite <- !(length_filter_Permutation _ occs occs' Hp). apply H.
Qed.

Lemma occurrences_variants U ign phon_trans :
  occurrences U ign phon_trans =
  filter (λ phs, phs ≠ []) phon_trans.*2 ≫=
    (λ phs, occurrences_from U ign (length phs) 0 phs).
Proof.
  induction phon_trans as [|[w phs] tr IH]; [done|].
  rewrite occurrences_cons, fmap_cons, filter_cons, IH. cbn [snd].
  destruct (decide (phs ≠ [])) as [Hne|He].
  - by rewrite bind_cons.
  - destruct phs; [done|]. by destruct He.
Qed.

(** X8: the counts depend only on the variants that have phonemes and on
    how often each occurs: not on the words, not on their order, and not on
    tokens without phonemes, such as the OOV words. *)
Theorem stats_depend_on_variants (U : Unicode) (ign : bool)
    (t1 t2 : list (str * list str)) :
  filter (λ phs, phs ≠ []) t1.*2 ≡ₚ filter (λ phs, phs ≠ []) t2.*2 →
  get_phoneme_stats U ign t1 = get_phoneme_stats U ign t2.
Proof.
  intros Hp. apply (tallies_unique (occurrences U ign t2)).
  - apply (tallies_Permutation (occurrences U ign t1)).
    + rewrite !occurrences_variants. by rewrite Hp.
    + apply tallies_get_phoneme_stats.
  - apply tallies_get_phoneme_stats.
Qed.

Lemma stats_depend_on_variants_witness :
  let cat := [lit "K"; lit "AE1"; lit "T"] in
  let sat := [lit "S"; lit "AE1"; lit "T"] in
  let t1 := [(lit "cat", cat); (lit "xyzzy", []); (lit "sat", sat)] in
  let t2 := [(lit "sat", sat); (lit "tac", cat)] in
  filter (λ phs, phs ≠ []) t1.*2 ≡ₚ filter (λ phs, phs ≠ []) t2.*2 ∧
  get_phoneme_stats AsciiRange.tables true t1 = get_phoneme_stats AsciiRange.tables true t2.
Proof.
  intros cat sat t1 t2.
  assert (filter (λ phs, phs ≠ []) t1.*2 ≡ₚ filter (λ phs, phs ≠ []) t2.*2) as Hp.
  { vm_compute. apply perm_swap. }
  split; [exact Hp|].
  exact (stats_depend_on_variants AsciiRange.tables true t1 t2 Hp).
Defined.


(** ** The tokens of a cleaned text *)

Section token_facts.
Context (U : Unicode) (HS : isspace U SPACE = true).

Lemma split_elem sep s w c : w ∈ split sep s → c ∈ w → c ∈ s ∧ c ≠ sep.
Proof.
  revert w. induction s as [|a s IH]; intros w; simpl.
  - intros ->%list_elem_of_singleton. by intros ?%elem_of_nil.
  - case_decide as Ha.
    + intros [->|Hw]%elem_of_cons; [by intros ?%elem_of_nil|].
      intros Hc. destruct (IH w Hw Hc). split; [by right|done].
    + destruct (split sep s) as [|w0 ws] eqn:Hs; [by destruct (split_nonempty sep s)|].
      intros [->|Hw]%elem_of_cons.
      * intros [->|Hc]%elem_of_cons; [split; [by left|done]|].
        destruct (IH w0 (list_elem_of_here _ _) Hc). split; [by right|done].
      * intros Hc. destruct (IH w (list_elem_of_further _ _ _ Hw) Hc).
        split; [by right|done].
Qed.

Lemma spaced_isspace b s c : spaced U b s → c ∈ s → isspace U c = true → c = SPACE.
Proof.
  revert b. induction s as [|a s IH]; intros b; simpl; [by intros _ ?%elem_of_nil|].
  destruct (isspace U a) eqn:Ha.
  - intros (-> & _ & Hs) [->|Hc]%elem_of_cons Hsp; [done|]. by apply (IH true).
  - intros Hs [->|Hc]%elem_of_cons Hsp; [congruence|]. by apply (IH false).
Qed.

Lemma rstrip_cons_fixed c s : rstrip U (c :: s) = c :: s → s = [] ∨ rstrip U s = s.
Proof.
  simpl. destruct (rstrip U s) as [|x r] eqn:Hr.
  - destruct (isspace U c); [done|]. intros [= <-]. by left.
  - intros [= <-]. by right.
Qed.

Lemma rstrip_space_alone c : isspace U c = true → rstrip U [c] ≠ [c].
Proof. intros Hc. simpl. by rewrite Hc. Qed.

(** In a text with single blanks and none at its end, no token after the
    first is empty. *)
Lemma later_tokens_nonempty b s :
  spaced U b s → rstrip U s = s → Forall (λ w, w ≠ []) (tail (split SPACE s)).
Proof.
  revert b. induction s as [|c s IH]; intros b Hs Hr; [by constructor|].
  cbn [split]. simpl in Hs. destruct (isspace U c) eqn:Hc.
  - destruct Hs as (-> & -> & Hs). rewrite decide_True by done. cbn [tail].
    destruct (rstrip_cons_fixed _ _ Hr) as [->|Hr'].
    { by destruct (rstrip_space_alone SPACE HS). }
    destruct s as [|c' s]; [by destruct (rstrip_space_alone SPACE HS)|].
    pose proof (IH true Hs Hr') as Htl.
    simpl in Hs. destruct (isspace U c') eqn:Hc'; [by destruct Hs as (_ & ? & _)|].
    assert (c' ≠ SPACE) as Hne by (intros ->; congruence).
    cbn [split] in Htl |- *. rewrite decide_False in Htl by done.
    rewrite decide_False by done.
    destruct (split SPACE s) as [|w ws] eqn:Hsp; [by destruct (split_nonempty SPACE s)|].
    cbn [tail] in Htl. by constructor.
  - assert (c ≠ SPACE) as Hne by (intros ->; congruence).
    rewrite decide_False by done.
    destruct (split SPACE s) as [|w ws] eqn:Hsp; [by destruct (split_nonempty SPACE s)|].
    cbn [tail]. destruct (rstrip_cons_fixed _ _ Hr) as [->|Hr'].
    { simpl in Hsp. injection Hsp as <- <-. constructor. }
    pose proof (IH false Hs Hr') as Htl. rewrite ?Hsp in Htl. done.
Qed.

Lemma first_token_nonempty s :
  s ≠ [] → no_lead U s → ∃ w ws, split SPACE s = w :: ws ∧ w ≠ [].
Proof.
  destruct s as [|c s]; [done|]. intros _ Hc. simpl in *.
  assert (c ≠ SPACE) as Hne by (intros ->; congruence).
  rewrite decide_False by done.
  destruct (split SPACE s) as [|w ws] eqn:Hsp; [by destruct (split_nonempty SPACE s)|].
  by eexists _, _.
Qed.

(** The shape of a cleaned text, from the whitespace of the tables alone. *)
Lemma clean_text_shape x :
  let s := clean_text U x in
  Forall (λ c, kept U c = true ∧ c ≠ LF ∧ c ≠ RSQUO) s ∧
  spaced U false s ∧ no_lead U s ∧ rstrip U s = s.
Proof.
  unfold clean_text, strip. set (s3 := List.filter _ _).
  assert (Forall (λ c, kept U c = true ∧ c ≠ LF ∧ c ≠ RSQUO) s3) as H3.
  { assert (Forall (λ c, c ≠ LF ∧ c ≠ RSQUO)
              (replace_char RSQUO APOSTROPHE (replace_char LF SPACE (str_lower U x)))) as H2.
    { apply Forall_and; split.
      - apply Forall_replace_char; [done|]. by apply replace_char_gone.
      - by apply replace_char_gone. }
    pose proof (Forall_filter_kept U _ _ H2) as H. fold s3 in H.
    eapply Forall_impl; [exact H|]. intros c [? ?]. done. }
  assert (kept U SPACE = true) as Hk.
  { unfold kept. by rewrite HS, orb_true_r. }
  split_and!.
  - by apply Forall_rstrip, Forall_lstrip, Forall_sub_ws.
  - by apply spaced_rstrip, (spaced_lstrip U false), sub_ws_spaced.
  - apply no_lead_rstrip, lstrip_no_lead.
  - apply rstrip_idemp.
Qed.
End token_facts.

(** X9: a cleaned text has no newline and no right quotation mark; when it
    is not empty, each of its tokens is a non-empty string of word
    characters and apostrophes without whitespace (the blank being
    whitespace for the tables). *)
Theorem cleaned_text_tokens (U : Unicode) (x : str) :
  isspace U SPACE = true →
  (LF ∉ clean_text U x) ∧ (RSQUO ∉ clean_text U x) ∧
  (clean_text U x ≠ [] →
   Forall (λ w, w ≠ [] ∧
                Forall (λ c, isspace U c = false ∧ (isword U c = true ∨ c = APOSTROPHE)) w)
          (split SPACE (clean_text U x))).
Proof.
  intros HS. destruct (clean_text_shape U HS x) as (Hc & Hsp & Hl & Hr).
  simpl in *. set (s := clean_text U x) in *. split_and!.
  - intros Hin. rewrite Forall_forall in Hc. by destruct (Hc _ Hin) as (_ & ? & _).
  - intros Hin. rewrite Forall_forall in Hc. by destruct (Hc _ Hin) as (_ & _ & ?).
  - intros Hne. apply Forall_forall. intros w Hw. split.
    + destruct (first_token_nonempty U HS s Hne Hl) as (w0 & ws & Hs & Hw0).
      pose proof (later_tokens_nonempty U HS false s Hsp Hr) as Htl.
      rewrite Hs in Hw, Htl. simpl in Htl.
      apply elem_of_cons in Hw as [->|Hw]; [done|].
      rewrite Forall_forall in Htl. by apply Htl.
    + apply Forall_forall. intros c Hcw.
      destruct (split_elem _ _ _ _ Hw Hcw) as [Hcs Hcne].
      assert (isspace U c = false) as Hns.
      { destruct (isspace U c) eqn:Hsp'; [|done].
        by destruct Hcne; apply (spaced_isspace U false s). }
      split; [done|]. rewrite Forall_forall in Hc.
      destruct (Hc c Hcs) as (Hk & _). unfold kept in Hk. rewrite Hns in Hk.
      destruct (isword U c); [by left|]. simpl in Hk.
      right. by apply bool_decide_eq_true in Hk.
Qed.

Lemma cleaned_text_tokens_witness :
  let x := lit "It's  The cat." in
  isspace AsciiRange.tables SPACE = true ∧
  (LF ∉ clean_text AsciiRange.tables x) ∧ (RSQUO ∉ clean_text AsciiRange.tables x) ∧
  (clean_text AsciiRange.tables x ≠ [] →
   Forall (λ w, w ≠ [] ∧
                Forall (λ c, isspace AsciiRange.tables c = false ∧
                             (isword AsciiRange.tables c = true ∨ c = APOSTROPHE)) w)
          (split SPACE (clean_text AsciiRange.tables x))).
Proof.
  intros x. split; [reflexivity|].
  exact (cleaned_text_tokens AsciiRange.tables x eq_refl).
Defined.


(** ** More on the validation *)

(** X10: the validation returns normally exactly when every counted
    phoneme has a positional entry whose counts sum to at most its total,
    and it raises [KeyError] exactly when some counted phoneme has no
    positional entry, whatever the other counts are. *)
Theorem check_counts_outcomes (pc : gmap str nat) (pbp : gmap str (list nat)) :
  (check_counts pc pbp = Returned () ↔
   ∀ k c, pc !! k = Some c → ∃ v, pbp !! k = Some v ∧ sum_list v ≤ c) ∧
  (check_counts pc pbp = Raised KeyError ↔ ¬ dom pc ⊆ dom pbp) ∧
  check_counts ∅ pbp = Returned ().
Proof.
  split_and!.
  - apply check_counts_Returned.
  - rewrite check_counts_KeyError. split.
    + intros (k & c & Hk & Hn) Hsub.
      assert (k ∈ dom pbp) as [? ?]%elem_of_dom by (apply Hsub, elem_of_dom; eauto).
      congruence.
    + intros Hsub.
      destruct (decide (∃ k, k ∈ dom pc ∧ k ∉ dom pbp)) as [(k & Hk & Hn)|Hno].
      * apply elem_of_dom in Hk as [c Hc]. exists k, c. split; [done|].
        by apply not_elem_of_dom.
      * destruct Hsub. intros k Hk.
        destruct (decide (k ∈ dom pbp)); [done|]. destruct Hno. eauto.
  - apply check_counts_Returned. intros k c. by rewrite lookup_empty.
Qed.

(** ** More on the corpus *)

(** X11: when the corpus has OOV words, none with a newline in it, the
    lines of the file that [export_oovs] writes are the OOV words, in the
    order of the list. *)
Theorem exported_lines_are_oovs (self : Corpus) (outpath : option str) (os : os_state) :
  corpus_oovs self ≠ [] →
  Forall (λ w, LF ∉ w) (corpus_oovs self) →
  ∃ content,
    files (export_oovs self outpath os)
      !! default (directory self ++ lit "/oovs.txt") outpath = Some content ∧
    split LF content = corpus_oovs self.
Proof.
  intros Hne Hlf. exists (join [LF] (corpus_oovs self)). split.
  - unfold export_oovs. rewrite bool_decide_eq_true_2.
    + destruct outpath; simpl; by rewrite lookup_insert_eq.
    + destruct (corpus_oovs self); [done|simpl; lia].
  - by apply split_join_lines.
Qed.

Lemma exported_lines_are_oovs_witness :
  let c := {| directory := lit "corpus"; passages := [];
              corpus_oovs := [lit "xyzzy"; []; lit "plugh"] |} in
  corpus_oovs c ≠ [] ∧
  Forall (λ w, LF ∉ w) (corpus_oovs c) ∧
  ∃ content,
    files (export_oovs c None (OS ∅ []))
      !! default (directory c ++ lit "/oovs.txt") None = Some content ∧
    split LF content = corpus_oovs c.
Proof.
  intros c.
  assert (corpus_oovs c ≠ []) as Hne by done.
  assert (Forall (λ w, LF ∉ w) (corpus_oovs c)) as Hlf.
  { apply (bool_decide_unpack _). vm_compute. exact I. }
  split; [exact Hne|]. split; [exact Hlf|].
  exact (exported_lines_are_oovs c None (OS ∅ []) Hne Hlf).
Defined.

(** X12: exporting twice leaves the files as exporting once does; for a
    corpus without OOV words each call prints its message again. *)
Theorem export_oovs_twice (self : Corpus) (outpath : option str) (os : os_state) :
  let once := export_oovs self outpath os in
  let twice := export_oovs self outpath once in
  files twice = files once ∧
  stdout twice =
    stdout once ++ (if bool_decide (corpus_oovs self = [])
                    then [lit "No OOV words in the corpus."] else []).
Proof.
  unfold export_oovs. destruct (corpus_oovs self) as [|w ws] eqn:Hw; simpl.
  - done.
  - try rewrite !bool_decide_eq_true_2 by lia. simpl.
    rewrite insert_insert_eq. by rewrite app_nil_r.
Qed.

(** X13: the OOV words of a corpus are the words of the OOV lists of its
    passages, each once, whatever the order in which a set is gone through;
    there are none for no passages, and taking the passages in another
    order gives the same words, possibly in another order. *)
Theorem corpus_oovs_are_union (O : SetOrder) (ps ps' : list Passage) :
  NoDup (find_oovs O ps) ∧
  (∀ w, w ∈ find_oovs O ps ↔ ∃ P, P ∈ ps ∧ w ∈ oovs P) ∧
  find_oovs O [] = [] ∧
  (ps ≡ₚ ps' → find_oovs O ps ≡ₚ find_oovs O ps').
Proof.
  destruct (find_oovs_spec O ps) as [Hnd Hin].
  destruct (find_oovs_spec O ps') as [Hnd' Hin'].
  split_and!; [done|done| |].
  - apply elem_of_nil_inv. intros w (P & []%elem_of_nil & _)%(find_oovs_spec O []).
  - intros Hp. apply NoDup_Permutation; [done|done|].
    intros w. rewrite Hin, Hin'. by setoid_rewrite Hp.
Qed.

(** ** Paths *)

Lemma last_split_app sep a f :
  sep ∉ f → last (split sep (a ++ sep :: f)) = Some f.
Proof.
  intros Hf. induction a as [|c a IH]; simpl.
  - rewrite decide_True by done. by rewrite split_no_sep.
  - pose proof (length_split sep (a ++ sep :: f)) as Hlen.
    rewrite filter_app, filter_cons, decide_True, length_app in Hlen by done.
    simpl in Hlen.
    destruct (split sep (a ++ sep :: f)) as [|w [|w' ws]] eqn:Hs; simpl in Hlen; try lia.
    case_decide; [done|]. by rewrite last_cons_cons in IH |- *.
Qed.

Lemma basename_os_path_join d f : SLASH ∉ f → basename (os_path_join d f) = f.
Proof.
  intros Hf. unfold os_path_join, basename.
  rewrite bool_decide_eq_false_2.
  2:{ destruct f as [|c f]; [done|]. simpl. intros [= ->]. apply Hf. by left. }
  case_bool_decide as Hd.
  - destruct Hd as [->|Hl].
    + simpl. by rewrite split_no_sep.
    + apply last_Some in Hl as [d' ->]. rewrite <- (assoc_L (++)). simpl.
      by rewrite last_split_app.
  - simpl. by rewrite last_split_app.
Qed.

(** X14: a passage constructed from the path of a file in a directory,
    without a name, is named by the file name, and its text is the cleaned
    content of the file. *)
Theorem passage_named_after_file (U : Unicode) (cmudict : str → list (list str))
    (fs : filesystem) (d f content : str) (ign : bool) (g g' : globals) (P : Passage) :
  SLASH ∉ f →
  fs !! os_path_join d f = Some content →
  Passage__init__ U cmudict fs (os_path_join d f) None ign g = (Returned P, g') →
  name P = Some f ∧ text P = clean_text U content.
Proof.
  intros Hf Hfs (_ & _ & _ & _ & Ht & Hn & _)%Passage__init__Returned.
  unfold read_input_text in *. rewrite Hfs in *. simpl in *.
  by rewrite basename_os_path_join in Hn.
Qed.

Lemma passage_named_after_file_witness :
  let fs : filesystem := {[ lit "corpus/notes.txt" := lit "The cat sat." ]} in
  ∃ P g',
    (SLASH ∉ lit "notes.txt") ∧
    fs !! os_path_join (lit "corpus") (lit "notes.txt") = Some (lit "The cat sat.") ∧
    Passage__init__ AsciiRange.tables stub_cmudict fs
      (os_path_join (lit "corpus") (lit "notes.txt")) None true fresh_globals
      = (Returned P, g') ∧
    name P = Some (lit "notes.txt") ∧
    text P = clean_text AsciiRange.tables (lit "The cat sat.").
Proof.
  intros fs.
  assert (SLASH ∉ lit "notes.txt") as Hf.
  { apply (bool_decide_unpack _). vm_compute. exact I. }
  assert (fs !! os_path_join (lit "corpus") (lit "notes.txt") = Some (lit "The cat sat."))
    as Hfs by (vm_compute; reflexivity).
  eexists _, _. split; [exact Hf|]. split; [exact Hfs|].
  split; [vm_compute; reflexivity|].
  eapply (passage_named_after_file AsciiRange.tables stub_cmudict fs
            (lit "corpus") (lit "notes.txt") (lit "The cat sat.") true fresh_globals);
    [exact Hf|exact Hfs|].
  vm_compute; reflexivity.
Defined.

(** ** Stress *)

Lemma size_list_to_set_le (l : list str) : size (list_to_set (C := gset str) l) ≤ length l.
Proof.
  induction l as [|a l IH].
  - change (list_to_set (C := gset str) []) with (∅ : gset str). by rewrite size_empty.
  - rewrite list_to_set_cons. cbn [length]. rewrite size_union_alt, size_singleton.
    assert (size (list_to_set (C := gset str) l ∖ {[a]}) ≤ size (list_to_set (C := gset str) l)).
    { apply subseteq_size. apply subseteq_difference_l. done. }
    lia.
Qed.

Lemma size_set_map_le (f : str → str) (X : gset str) :
  size (set_map (D := gset str) f X) ≤ size X.
Proof.
  unfold set_map. etrans; [apply size_list_to_set_le|].
  by rewrite length_fmap.
Qed.

Lemma tallies_dom occs acc :
  tallies occs acc → dom acc.1 = list_to_set (C := gset str) occs.*1.
Proof.
  intros HT. apply set_eq. intros k.
  rewrite elem_of_dom, elem_of_list_to_set, <- occ_total_pos.
  destruct (HT k) as [-> _].
  case_decide; split; intros H'; first [done | by destruct H' | eauto].
Qed.

(** X15: counting without stress merges symbols and loses no phoneme: the
    symbols counted are the images of the symbols counted with stress
    under the removal of the stress digit, there are at most as many of
    them, and the totals of the two tables have the same sum. *)
Theorem ignoring_stress_merges_symbols (U : Unicode) (phon_trans : list (str * list str)) :
  let keep := (get_phoneme_stats U false phon_trans).1 in
  let merged := (get_phoneme_stats U true phon_trans).1 in
  dom merged = set_map (strip_stress U) (dom keep) ∧
  size merged ≤ size keep ∧
  sum_list (map_to_list merged).*2 = sum_list (map_to_list keep).*2.
Proof.
  intros keep merged.
  pose proof (tallies_get_phoneme_stats U false phon_trans) as Hk.
  pose proof (tallies_get_phoneme_stats U true phon_trans) as Hm.
  assert (dom merged = set_map (strip_stress U) (dom keep)) as Hdom.
  { unfold merged, keep. rewrite (tallies_dom _ _ Hk), (tallies_dom _ _ Hm).
    rewrite !occurrences_fst. rewrite <- list_to_set_fmap_L.
    rewrite <- list_fmap_compose. done. }
  split_and!; [done| |].
  - rewrite <- !size_dom, Hdom. apply size_set_map_le.
  - unfold merged, keep.
    rewrite (tallies_sum_total _ _ Hk), (tallies_sum_total _ _ Hm).
    by rewrite !length_occurrences.
Qed.


Example str_replace_examples :
  str_replace (lit ".txt") (lit ".pkl") (lit "notes.txt") = lit "notes.pkl" ∧
  str_replace (lit ".txt") (lit ".pkl") (lit "a.txt.txt") = lit "a.pkl.pkl" ∧
  str_replace (lit ".txt") (lit ".pkl") (lit "a.pkl.txt") = lit "a.pkl.pkl" ∧
  str_replace (lit "aa") (lit "b") (lit "aaa") = lit "ba" ∧
  str_replace (lit "") (lit "-") (lit "ab") = lit "-a-b-" ∧
  endswith (lit ".txt") (lit "notes.txt") = true ∧
  endswith (lit ".txt") (lit "cached") = false ∧
  os_path_join (lit "corpus") (lit "cached") = lit "corpus/cached" ∧
  os_path_join (lit "corpus/") (lit "a.txt") = lit "corpus/a.txt" ∧
  os_path_join (lit "corpus") (lit "/a.txt") = lit "/a.txt".
Proof. split_and!; vm_compute; reflexivity. Qed.

(** ** Loading the passages of a corpus *)

Lemma length_filter_negb {A} (p : A → bool) (l : list A) :
  length (List.filter p l) + length (List.filter (λ x, negb (p x)) l) = length l.
Proof. induction l as [|x l IH]; simpl; [done|]. destruct (p x); simpl; lia. Qed.

Section corpus_facts.
Context {W : Type} `{!FileSystem W}.
Context (U : Unicode) (cmudict : str → list (list str)).

(** The first loop sorts the files into those with a cache file, which it
    loads, and the others, and prints a line for each of the former. *)
Lemma foldl_sort_file directory cache_dir lfc (w : W) txt passages new_files out :
  let hit f := lfc && os_path_exists (os_path_join cache_dir (cache_name f)) w in
  foldl (sort_file directory cache_dir lfc w) (passages, new_files, out) txt =
  (passages ++ ((λ f, pickle_load (os_path_join cache_dir (cache_name f)) w)
                  <$> List.filter hit txt),
   new_files ++ (os_path_join directory <$> List.filter (λ f, negb (hit f)) txt),
   out ++ ((λ f, lit "Loading passage data for " ++ f ++ lit " from cached...")
             <$> List.filter hit txt)).
Proof.
  intros hit. revert passages new_files out.
  induction txt as [|f txt IH]; intros passages new_files out.
  - simpl. by rewrite !app_nil_r.
  - cbn [foldl List.filter]. unfold sort_file at 2. fold (hit f).
    destruct (hit f); cbn [negb]; rewrite IH, ?fmap_cons, <- ?(assoc_L (++)); done.
Qed.

(** The second loop returns: it constructs a passage from each file in
    turn, and leaves the file system alone when [cache] is not set. *)
Lemma foldl_analyze_file cache_dir ign cache files passages (w : W) g :
  ∃ fresh w' g',
    foldl (analyze_file U cmudict cache_dir ign cache) (Returned passages, w, g) files
      = (Returned (passages ++ fresh), w', g') ∧
    constructed_in_turn U cmudict cache_dir ign cache w g files fresh w' g' ∧
    (cache = false → w' = w).
Proof.
  revert passages w g. induction files as [|f files IH]; intros passages w g.
  - exists [], w, g. simpl. rewrite app_nil_r. done.
  - cbn [foldl]. unfold analyze_file at 2.
    destruct (Passage__init__returns U cmudict (text_files w) f None ign g)
      as (P & g1 & HP).
    rewrite HP.
    destruct (IH (passages ++ [P])
                (if cache
                 then pickle_dump P (os_path_join cache_dir (cache_name (basename f))) w
                 else w) g1) as (fresh & w' & g' & Hf & HF & Hw).
    exists (P :: fresh), w', g'. split_and!.
    + rewrite Hf. by rewrite <- (assoc_L (++)).
    + cbn [constructed_in_turn]. by exists g1.
    + intros ->. by rewrite Hw.
Qed.

Lemma constructed_in_turn_length cache_dir ign cache (w : W) g files fresh w' g' :
  constructed_in_turn U cmudict cache_dir ign cache w g files fresh w' g' →
  length fresh = length files.
Proof.
  revert w g fresh. induction files as [|f files IH]; intros w g [|P fresh]; simpl; try done.
  intros (g1 & _ & H). f_equal. by eapply IH.
Qed.

(** Without [cache], every passage is constructed on the same file system:
    its text is the cleaned content of its file, or the cleaned path when
    there is no such file, and it is named after the file. *)
Lemma constructed_in_turn_texts cache_dir ign (w : W) g files fresh w' g' :
  constructed_in_turn U cmudict cache_dir ign false w g files fresh w' g' →
  Forall2 (λ filepath P,
             text P = clean_text U (default filepath (text_files w !! filepath)) ∧
             name P = (λ _, basename filepath) <$> text_files w !! filepath)
          files fresh.
Proof.
  revert g fresh. induction files as [|f files IH]; intros g [|P fresh]; simpl; try done.
  intros (g1 & HP & H). constructor; [|by eapply IH].
  apply Passage__init__Returned in HP as (_ & _ & _ & _ & Ht & Hn & _).
  unfold read_input_text in *. by destruct (text_files w !! f).
Qed.

(** The two loops of [__load_passages], one after the other. *)
Lemma load_passages_parts (directory : str) (ign cache lfc : bool)
    (w : W) (out : list str) (g : globals) :
  let cache_dir := os_path_join directory (lit "cached") in
  let w1 := if os_path_exists cache_dir w then w else os_makedirs cache_dir w in
  let txt := List.filter (endswith (lit ".txt")) (os_listdir directory w1) in
  let hit f := lfc && os_path_exists (os_path_join cache_dir (cache_name f)) w1 in
  ∃ fresh w' g',
    load_passages U cmudict directory ign cache lfc w out g =
      (Returned (((λ f, pickle_load (os_path_join cache_dir (cache_name f)) w1)
                    <$> List.filter hit txt) ++ fresh),
       w',
       out ++ ((λ f, lit "Loading passage data for " ++ f ++ lit " from cached...")
                 <$> List.filter hit txt),
       g') ∧
    constructed_in_turn U cmudict cache_dir ign cache w1 g
      (os_path_join directory <$> List.filter (λ f, negb (hit f)) txt) fresh w' g' ∧
    length (List.filter hit txt) + length fresh = length txt ∧
    (cache = false → w' = w1).
Proof.
  intros cache_dir w1 txt hit. unfold load_passages.
  fold cache_dir. fold w1. fold txt.
  rewrite (foldl_sort_file directory cache_dir lfc w1 txt [] [] out).
  cbv zeta. fold hit. rewrite !app_nil_l.
  destruct (foldl_analyze_file cache_dir ign cache
              (os_path_join directory <$> List.filter (λ f, negb (hit f)) txt)
              ((λ f, pickle_load (os_path_join cache_dir (cache_name f)) w1)
                 <$> List.filter hit txt) w1 g) as (fresh & w' & g' & Hf & HF & Hw).
  exists fresh, w', g'. unfold hit in Hf |- *. rewrite Hf.
  split_and!; [done|done| |done].
  apply constructed_in_turn_length in HF. rewrite length_fmap in HF. rewrite HF.
  apply length_filter_negb.
Qed.

(** X16: [__load_passages] returns first the passages of the files that
    have a cache file (when [load_from_cache] is set), loaded from their
    cache files in the order of the listing, and after them the passages
    constructed from the other [.txt] files, one after the other: each is
    what the constructor returns for the path of its file, on the text
    files as they are then and in the state of the module that the
    constructions before it have left, and with [cache] it is written to
    its cache file before the next one is constructed.  A line is printed
    for each cache file that is loaded; the file system and the state of
    the module returned are those after the last construction, and without
    [cache] the second loop leaves the file system as it is. *)
Theorem load_passages_structure (directory : str) (ign cache lfc : bool)
    (w : W) (out : list str) (g : globals) :
  let cache_dir := os_path_join directory (lit "cached") in
  let w1 := if os_path_exists cache_dir w then w else os_makedirs cache_dir w in
  let txt := List.filter (endswith (lit ".txt")) (os_listdir directory w1) in
  let hit f := lfc && os_path_exists (os_path_join cache_dir (cache_name f)) w1 in
  ∃ fresh w' g',
    load_passages U cmudict directory ign cache lfc w out g =
      (Returned (((λ f, pickle_load (os_path_join cache_dir (cache_name f)) w1)
                    <$> List.filter hit txt) ++ fresh),
       w',
       out ++ ((λ f, lit "Loading passage data for " ++ f ++ lit " from cached...")
                 <$> List.filter hit txt),
       g') ∧
    constructed_in_turn U cmudict cache_dir ign cache w1 g
      (os_path_join directory <$> List.filter (λ f, negb (hit f)) txt) fresh w' g' ∧
    length (List.filter hit txt) + length fresh = length txt ∧
    (cache = false → w' = w1).
Proof. apply load_passages_parts. Qed.
End corpus_facts.

Section corpus_flags.
Context {W : Type} `{!FileSystem W}.
Context (U : Unicode) (cmudict : str → list (list str)).

Lemma List_filter_all {A} (p : A → bool) (l : list A) :
  Forall (λ x, p x = true) l → List.filter p l = l.
Proof. induction 1 as [|x l Hx Hl IH]; simpl; [done|]. by rewrite Hx, IH. Qed.

Lemma List_filter_none {A} (p : A → bool) (l : list A) :
  Forall (λ x, p x = false) l → List.filter p l = [].
Proof. induction 1 as [|x l Hx Hl IH]; simpl; [done|]. by rewrite Hx, IH. Qed.

(** When every listed file has a cache file, only the first loop acts. *)
Lemma load_passages_all_hits (directory : str) (ign cache : bool)
    (w : W) (out : list str) (g : globals) :
  Forall (λ f, os_path_exists (cache_path directory f) (with_cache_dir directory w) = true)
         (txt_files directory (with_cache_dir directory w)) →
  load_passages U cmudict directory ign cache true w out g =
    (Returned ((λ f, pickle_load (cache_path directory f) (with_cache_dir directory w))
                 <$> txt_files directory (with_cache_dir directory w)),
     with_cache_dir directory w,
     out ++ (loading_line <$> txt_files directory (with_cache_dir directory w)),
     g).
Proof.
  intros Hall. unfold load_passages.
  fold (cache_dir_of directory). fold (with_cache_dir directory w).
  fold (txt_files directory (with_cache_dir directory w)).
  set (w1 := with_cache_dir directory w) in *.
  set (txt := txt_files directory w1) in *.
  rewrite (foldl_sort_file directory (cache_dir_of directory) true w1 txt [] [] out).
  cbv zeta. rewrite !app_nil_l.
  rewrite (List_filter_all _ txt) by exact Hall.
  rewrite (List_filter_none (λ f, negb _) txt).
  2:{ eapply Forall_impl; [exact Hall|]. intros f Hf. simpl in *.
      unfold cache_path in Hf. by rewrite Hf. }
  simpl. done.
Qed.

(** X17: when [load_from_cache] is set and every listed [.txt] file has a
    cache file, the passages are the contents of the cache files, in the
    order of the listing, whatever [ignore_stress] and [cache] are and
    whatever the text files hold; no passage is constructed, so the
    module's state and the file system (the cache directory apart) stay as
    they are. *)
Theorem cache_hits_bypass_analysis (directory : str) (ign cache : bool)
    (w : W) (out : list str) (g : globals) :
  Forall (λ f, os_path_exists (cache_path directory f) (with_cache_dir directory w) = true)
         (txt_files directory (with_cache_dir directory w)) →
  load_passages U cmudict directory ign cache true w out g =
    (Returned ((λ f, pickle_load (cache_path directory f) (with_cache_dir directory w))
                 <$> txt_files directory (with_cache_dir directory w)),
     with_cache_dir directory w,
     out ++ (loading_line <$> txt_files directory (with_cache_dir directory w)),
     g).
Proof. apply load_passages_all_hits. Qed.

(** X18: with [cache] and [load_from_cache] both unset, nothing is loaded
    from a cache file and nothing is printed: every passage returned is
    constructed, one for each listed [.txt] file in the order of the
    listing, from the path of the file, on the text files as they were, in
    the state of the module that the constructions before it have left; so
    its text is the cleaned content of the file at that path (the cleaned
    path, were there no such file), and it is named by the base name of the
    path.  The cache directory is nevertheless created when it does not
    exist: that is all that happens to the file system. *)
Theorem uncached_load_creates_cache_dir (directory : str) (ign : bool)
    (w w' : W) (out out' : list str) (g g' : globals) (r : result (list Passage)) :
  load_passages U cmudict directory ign false false w out g = (r, w', out', g') →
  w' = with_cache_dir directory w ∧ out' = out ∧
  ∃ passages,
    r = Returned passages ∧
    length passages = length (txt_files directory (with_cache_dir directory w)) ∧
    constructed_in_turn U cmudict (cache_dir_of directory) ign false
      (with_cache_dir directory w) g
      (os_path_join directory <$> txt_files directory (with_cache_dir directory w))
      passages (with_cache_dir directory w) g' ∧
    Forall2 (λ filepath P,
               text P = clean_text U
                          (default filepath
                             (text_files (with_cache_dir directory w) !! filepath)) ∧
               name P = (λ _, basename filepath)
                          <$> text_files (with_cache_dir directory w) !! filepath)
      (os_path_join directory <$> txt_files directory (with_cache_dir directory w))
      passages.
Proof.
  intros Hload.
  destruct (load_passages_parts U cmudict directory ign false false w out g)
    as (fresh & w2 & g2 & Hl & HF & Hlen & Hw).
  fold (cache_dir_of directory) in *. fold (with_cache_dir directory w) in *.
  fold (txt_files directory (with_cache_dir directory w)) in *.
  cbn [andb negb] in *.
  rewrite (List_filter_none (λ _, false)) in Hl by (by apply Forall_forall).
  rewrite (List_filter_all (λ _, true)) in HF by (by apply Forall_forall).
  rewrite Hload in Hl. simpl in Hl. rewrite app_nil_r in Hl.
  injection Hl as -> -> -> ->.
  specialize (Hw eq_refl). subst w2.
  split_and!; [done|done|].
  exists fresh. split_and!; [done| |done|].
  - apply constructed_in_turn_length in HF. by rewrite length_fmap in HF.
  - by apply constructed_in_turn_texts in HF.
Qed.

(** X19: constructing a corpus returns a corpus; its passages are those of
    [__load_passages], and its OOV words are the words of the OOV lists of
    its passages, those loaded from cache files included, each once. *)
Theorem corpus_init_returns (O : SetOrder) (d : str) (ign cache lfc : bool)
    (w : W) (out : list str) (g : globals) :
  ∃ c w' out' g',
    Corpus__init__ U cmudict O d ign cache lfc w out g = (Returned c, w', out', g') ∧
    load_passages U cmudict d ign cache lfc w out g
      = (Returned (passages c), w', out', g') ∧
    directory c = d ∧
    NoDup (corpus_oovs c) ∧
    ∀ x, x ∈ corpus_oovs c ↔ ∃ P, P ∈ passages c ∧ x ∈ oovs P.
Proof.
  destruct (load_passages_parts U cmudict d ign cache lfc w out g)
    as (fresh & w' & g' & Hl & _).
  unfold Corpus__init__. rewrite Hl.
  eexists _, _, _, _. split; [reflexivity|]. simpl.
  split_and!; [done|done|apply find_oovs_spec|apply find_oovs_spec].
Qed.
End corpus_flags.

(** ** The round trip through the cache files *)

Section round_trip.
Context {W : Type} `{!FileSystem W}.
Context (U : Unicode) (cmudict : str → list (list str)).
Context (d : str).

Lemma List_filter_split {A} (p : A → bool) (l : list A) :
  List.filter p l ++ List.filter (λ x, negb (p x)) l ≡ₚ l.
Proof.
  induction l as [|x l IH]; simpl; [done|].
  destruct (p x); simpl.
  - by rewrite IH.
  - by rewrite <- Permutation_middle, IH.
Qed.

Lemma List_filter_elem {A} (p : A → bool) (l : list A) x :
  x ∈ List.filter p l ↔ x ∈ l ∧ p x = true.
Proof. rewrite !list_elem_of_In. apply filter_In. Qed.

Lemma load_passages_unfold ign cache lfc (w : W) out g :
  load_passages U cmudict d ign cache lfc w out g =
  let w1 := with_cache_dir d w in
  let txt := txt_files d w1 in
  let hit := λ f, lfc && os_path_exists (cache_path d f) w1 in
  let '(r, w', g') :=
    foldl (analyze_file U cmudict (cache_dir_of d) ign cache)
      (Returned ((λ f, pickle_load (cache_path d f) w1) <$> List.filter hit txt), w1, g)
      (os_path_join d <$> List.filter (λ f, negb (hit f)) txt) in
  (r, w', out ++ (loading_line <$> List.filter hit txt), g').
Proof.
  unfold load_passages.
  rewrite (foldl_sort_file d (os_path_join d (lit "cached")) lfc _ _ [] [] out).
  reflexivity.
Qed.

(** The second loop with [cache] set, over files of the directory whose
    cache files are among [paths]: each passage is in its cache file
    afterwards. *)
Lemma foldl_analyze_file_dumps paths ign fs passages (w : W) g :
  CacheLaws (W := W) d paths →
  Forall (λ f, SLASH ∉ f) fs →
  Forall (λ f, cache_path d f ∈ paths) fs →
  NoDup (cache_path d <$> fs) →
  os_path_exists (cache_dir_of d) w = true →
  ∃ fresh w' g',
    foldl (analyze_file U cmudict (cache_dir_of d) ign true) (Returned passages, w, g)
          (os_path_join d <$> fs)
      = (Returned (passages ++ fresh), w', g') ∧
    fresh = (λ f, pickle_load (cache_path d f) w') <$> fs ∧
    (∀ q, q ∈ paths → os_path_exists q w = true → q ∉ cache_path d <$> fs →
          pickle_load q w' = pickle_load q w) ∧
    (∀ q, q ∈ cache_dir_of d :: paths →
          os_path_exists q w = true → os_path_exists q w' = true) ∧
    (∀ f, f ∈ fs → os_path_exists (cache_path d f) w' = true) ∧
    os_listdir d w' = os_listdir d w.
Proof.
  intros HL. revert passages w g.
  induction fs as [|f fs IH]; intros passages w g Hs Hin Hnd Hdir.
  - exists [], w, g. simpl. rewrite app_nil_r.
    split_and!; try done. by intros f ?%elem_of_nil.
  - rewrite fmap_cons in Hnd. apply NoDup_cons in Hnd as [Hf Hnd].
    apply Forall_cons in Hs as [Hsf Hs]. apply Forall_cons in Hin as [Hinf Hin].
    rewrite fmap_cons. cbn [foldl]. unfold analyze_file at 2.
    destruct (Passage__init__returns U cmudict (text_files w) (os_path_join d f) None ign g)
      as (P & g1 & HP).
    rewrite HP. rewrite basename_os_path_join by done.
    fold (cache_path d f).
    assert (os_path_exists (cache_dir_of d) (pickle_dump P (cache_path d f) w) = true)
      as Hdir2.
    { apply (dump_keeps d paths HL); [done|by left|done|done]. }
    destruct (IH (passages ++ [P]) (pickle_dump P (cache_path d f) w) g1 Hs Hin Hnd Hdir2)
      as (fresh & w' & g' & Hfold & Hfresh & Hother & Hex & Hall & Hls).
    exists (P :: fresh), w', g'. split_and!.
    + rewrite Hfold. by rewrite <- (assoc_L (++)).
    + rewrite fmap_cons. f_equal; [|done].
      rewrite (Hother _ Hinf); [|by apply (dump_exists d paths HL)|done].
      by rewrite (dump_load d paths HL).
    + intros q Hq Hqw [Hq1 Hq2]%not_elem_of_cons.
      rewrite (Hother q Hq); [| |done].
      * apply (dump_load_other d paths HL); [done|done|congruence|done|done].
      * apply (dump_keeps d paths HL); [done|by right|done|done].
    + intros q Hq Hqw. apply Hex; [done|].
      by apply (dump_keeps d paths HL).
    + intros f' [->|Hf']%elem_of_cons; [|by apply Hall].
      apply Hex; [by right|]. by apply (dump_exists d paths HL).
    + rewrite Hls. by apply (dump_listdir d paths HL).
Qed.

(** X20: after the passages of a directory were loaded with [cache] set,
    loading them again with [load_from_cache] set constructs no passage: it
    returns the passages of the first time, read from the cache files in
    the order of the listing (the first time gave them with the ones from
    the cache first), and leaves the file system and the module's state as
    they are.  This needs the cache files of the listed files to be
    different files, file names without a slash, and a file system on
    which writing one of these cache files does what [CacheLaws] says. *)
Theorem cache_round_trip (ign ign2 cache2 lfc : bool)
    (w w' : W) (out out' : list str) (g g' : globals) (ps : list Passage) :
  CacheLaws (W := W) d (cache_path d <$> txt_files d (with_cache_dir d w)) →
  Forall (λ f, SLASH ∉ f) (txt_files d (with_cache_dir d w)) →
  NoDup (cache_path d <$> txt_files d (with_cache_dir d w)) →
  load_passages U cmudict d ign true lfc w out g = (Returned ps, w', out', g') →
  ∃ ps2,
    load_passages U cmudict d ign2 cache2 true w' out' g'
      = (Returned ps2, w', out' ++ (loading_line <$> txt_files d (with_cache_dir d w)), g') ∧
    ps2 = (λ f, pickle_load (cache_path d f) w') <$> txt_files d (with_cache_dir d w) ∧
    ps2 ≡ₚ ps.
Proof.
  intros HL Hslash Hnd Hload.
  set (w1 := with_cache_dir d w) in *. set (txt := txt_files d w1) in *.
  set (hit := λ f, lfc && os_path_exists (cache_path d f) w1).
  assert (os_path_exists (cache_dir_of d) w1 = true) as Hdir1.
  { unfold w1, with_cache_dir.
    destruct (os_path_exists (cache_dir_of d) w) eqn:He; [done|].
    apply (makedirs_exists d _ HL). }
  (* the first time *)
  rewrite load_passages_unfold in Hload. cbv zeta in Hload.
  fold w1 in Hload. fold txt in Hload. fold hit in Hload.
  assert (Forall (λ f, SLASH ∉ f) (List.filter (λ f, negb (hit f)) txt)) as Hs2.
  { apply Forall_forall. intros f [Hf _]%List_filter_elem.
    rewrite Forall_forall in Hslash. by apply Hslash. }
  assert (Forall (λ f, cache_path d f ∈ cache_path d <$> txt)
            (List.filter (λ f, negb (hit f)) txt)) as Hin2.
  { apply Forall_forall. intros f [Hf _]%List_filter_elem.
    by apply list_elem_of_fmap_2. }
  assert (NoDup (cache_path d <$> List.filter (λ f, negb (hit f)) txt)) as Hnd2.
  { assert (List.filter (λ f, negb (hit f)) txt `sublist_of` txt) as Hsub.
    { generalize txt. intros l. induction l as [|f l IH]; simpl; [done|].
      destruct (negb (hit f)); by constructor. }
    apply (sublist_NoDup _ (cache_path d <$> txt)); [exact Hnd|by apply fmap_sublist]. }
  destruct (foldl_analyze_file_dumps (cache_path d <$> txt) ign
              (List.filter (λ f, negb (hit f)) txt)
              ((λ f, pickle_load (cache_path d f) w1) <$> List.filter hit txt) w1 g
              HL Hs2 Hin2 Hnd2 Hdir1)
    as (fresh & w2 & g2 & Hfold & Hfresh & Hother & Hex & Hall & Hls).
  rewrite Hfold in Hload. injection Hload as <- <- <- <-.
  (* the state it leaves *)
  assert (os_path_exists (cache_dir_of d) w2 = true) as Hdir.
  { apply Hex; [by left|done]. }
  assert (with_cache_dir d w2 = w2) as Hw2.
  { unfold with_cache_dir. by rewrite Hdir. }
  assert (txt_files d w2 = txt) as Htxt.
  { unfold txt_files. by rewrite Hls. }
  assert (∀ f, f ∈ txt → os_path_exists (cache_path d f) w2 = true) as Hexists.
  { intros f Hf. destruct (hit f) eqn:Hh.
    - apply Hex; [right; by apply list_elem_of_fmap_2|].
      unfold hit in Hh. by apply andb_true_iff in Hh as [_ ?].
    - apply Hall, List_filter_elem. by rewrite Hh. }
  eexists. split; [|split; [reflexivity|]].
  - rewrite (load_passages_all_hits U cmudict d ign2 cache2 w2 _ g2).
    + by rewrite Hw2, Htxt.
    + rewrite Hw2, Htxt. apply Forall_forall. exact Hexists.
  - rewrite Hfresh.
    assert ((λ f, pickle_load (cache_path d f) w1) <$> List.filter hit txt
            = (λ f, pickle_load (cache_path d f) w2) <$> List.filter hit txt) as ->.
    { apply list_fmap_ext. intros i f Hi. symmetry.
      apply list_elem_of_lookup_2, List_filter_elem in Hi as [Hf Hh].
      apply Hother.
      { by apply list_elem_of_fmap_2. }
      { unfold hit in Hh. by apply andb_true_iff in Hh as [_ ?]. }
      intros (f' & Heq & [Hf' Hn]%List_filter_elem)%list_elem_of_fmap.
      assert (f = f'); [|subst; rewrite Hh in Hn; done].
      clear -Hnd Heq Hf Hf'.
      apply list_elem_of_lookup in Hf as [i Hi], Hf' as [j Hj].
      assert (i = j); [|congruence].
      eapply NoDup_lookup; [exact Hnd| |];
        rewrite list_lookup_fmap; [by rewrite Hi|by rewrite Hj, Heq]. }
    rewrite <- fmap_app. by rewrite List_filter_split.
Qed.
End round_trip.

(** ** The example file system *)

Lemma toy_cache_laws d paths : CacheLaws (W := toy_disk) d paths.
Proof.
  split; simpl.
  - intros P p w _ _. apply bool_decide_eq_true. right; left.
    rewrite lookup_insert_eq. eauto.
  - intros P p q w _ _ _ Hq. apply bool_decide_eq_true in Hq. apply bool_decide_eq_true.
    destruct Hq as [?|[[x Hx]|?]]; [by left| |by right; right].
    right; left. destruct (decide (p = q)) as [->|Hne].
    + rewrite lookup_insert_eq. eauto.
    + rewrite lookup_insert_ne by done. eauto.
  - intros P p w _ _. by rewrite lookup_insert_eq.
  - intros P p q w _ _ Hne _ _. by rewrite lookup_insert_ne.
  - done.
  - intros w. apply bool_decide_eq_true. right; right.
    apply elem_of_app. right. by apply list_elem_of_singleton.
Qed.

Lemma cache_hits_bypass_analysis_witness :
  Forall (λ f, os_path_exists (cache_path (lit "corpus") f)
                 (with_cache_dir (lit "corpus") toy_cached_corpus) = true)
         (txt_files (lit "corpus") (with_cache_dir (lit "corpus") toy_cached_corpus)) ∧
  load_passages AsciiRange.tables stub_cmudict (lit "corpus") false true true
    toy_cached_corpus [] fresh_globals =
    (Returned ((λ f, pickle_load (cache_path (lit "corpus") f)
                       (with_cache_dir (lit "corpus") toy_cached_corpus))
                 <$> txt_files (lit "corpus") (with_cache_dir (lit "corpus") toy_cached_corpus)),
     with_cache_dir (lit "corpus") toy_cached_corpus,
     [] ++ (loading_line
              <$> txt_files (lit "corpus") (with_cache_dir (lit "corpus") toy_cached_corpus)),
     fresh_globals).
Proof.
  assert (Forall (λ f, os_path_exists (cache_path (lit "corpus") f)
                         (with_cache_dir (lit "corpus") toy_cached_corpus) = true)
            (txt_files (lit "corpus") (with_cache_dir (lit "corpus") toy_cached_corpus)))
    as Hall.
  { vm_compute txt_files. repeat constructor. }
  split; [exact Hall|].
  exact (cache_hits_bypass_analysis AsciiRange.tables stub_cmudict (lit "corpus")
           false true toy_cached_corpus [] fresh_globals Hall).
Defined.

Lemma uncached_load_creates_cache_dir_witness :
  ∃ r w' out' g',
    load_passages AsciiRange.tables stub_cmudict (lit "corpus") true false false
      toy_corpus [] fresh_globals = (r, w', out', g') ∧
    toy_dirs w' = [lit "corpus"; lit "corpus/cached"] ∧
    w' = with_cache_dir (lit "corpus") toy_corpus ∧ out' = [] ∧
    ∃ passages,
      r = Returned passages ∧
      length passages
        = length (txt_files (lit "corpus") (with_cache_dir (lit "corpus") toy_corpus)) ∧
      constructed_in_turn AsciiRange.tables stub_cmudict (cache_dir_of (lit "corpus"))
        true false (with_cache_dir (lit "corpus") toy_corpus) fresh_globals
        (os_path_join (lit "corpus")
           <$> txt_files (lit "corpus") (with_cache_dir (lit "corpus") toy_corpus))
        passages (with_cache_dir (lit "corpus") toy_corpus) g' ∧
      Forall2 (λ filepath P,
                 text P = clean_text AsciiRange.tables
                            (default filepath
                               (text_files (with_cache_dir (lit "corpus") toy_corpus)
                                  !! filepath)) ∧
                 name P = (λ _, basename filepath)
                            <$> text_files (with_cache_dir (lit "corpus") toy_corpus)
                                  !! filepath)
        (os_path_join (lit "corpus")
           <$> txt_files (lit "corpus") (with_cache_dir (lit "corpus") toy_corpus))
        passages.
Proof.
  eexists _, _, _, _. split; [vm_compute; reflexivity|].
  split; [vm_compute; reflexivity|].
  eapply (uncached_load_creates_cache_dir AsciiRange.tables stub_cmudict (lit "corpus")
            true toy_corpus _ [] _ fresh_globals).
  vm_compute; reflexivity.
Defined.

(** The passages of the example: the texts of the two files, cleaned, under
    the names of the files; [xyzzy] is the one OOV word. *)
Example uncached_load_example :
  ∃ Pa Pb w' g',
    load_passages AsciiRange.tables stub_cmudict (lit "corpus") true false false
      toy_corpus [] fresh_globals = (Returned [Pa; Pb], w', [], g') ∧
    name Pa = Some (lit "a.txt") ∧ text Pa = lit "the cat sat" ∧ oovs Pa = [] ∧
    name Pb = Some (lit "b.txt") ∧ text Pb = lit "xyzzy a cat" ∧ oovs Pb = [lit "xyzzy"] ∧
    cmudict_calls g' = [lit "the"; lit "cat"; lit "sat"; lit "xyzzy"; lit "a"] ∧
    find_oovs elements_order [Pa; Pb] = [lit "xyzzy"].
Proof.
  eexists _, _, _, _. split; [vm_compute; reflexivity|].
  split_and!; vm_compute; reflexivity.
Qed.

Lemma cache_round_trip_witness :
  ∃ ps w' out' g',
    CacheLaws (W := toy_disk) (lit "corpus")
      (cache_path (lit "corpus")
         <$> txt_files (lit "corpus") (with_cache_dir (lit "corpus") toy_corpus)) ∧
    Forall (λ f, SLASH ∉ f)
      (txt_files (lit "corpus") (with_cache_dir (lit "corpus") toy_corpus)) ∧
    NoDup (cache_path (lit "corpus")
             <$> txt_files (lit "corpus") (with_cache_dir (lit "corpus") toy_corpus)) ∧
    load_passages AsciiRange.tables stub_cmudict (lit "corpus") true true true
      toy_corpus [] fresh_globals = (Returned ps, w', out', g') ∧
    length ps = 2 ∧
    ∃ ps2,
      load_passages AsciiRange.tables stub_cmudict (lit "corpus") false false true w' out' g'
        = (Returned ps2, w',
           out' ++ (loading_line
                      <$> txt_files (lit "corpus") (with_cache_dir (lit "corpus") toy_corpus)),
           g') ∧
      ps2 = (λ f, pickle_load (cache_path (lit "corpus") f) w')
              <$> txt_files (lit "corpus") (with_cache_dir (lit "corpus") toy_corpus) ∧
      ps2 ≡ₚ ps.
Proof.
  assert (Forall (λ f, SLASH ∉ f)
            (txt_files (lit "corpus") (with_cache_dir (lit "corpus") toy_corpus))) as Hs.
  { apply (bool_decide_unpack _). vm_compute. exact I. }
  assert (NoDup (cache_path (lit "corpus")
                   <$> txt_files (lit "corpus") (with_cache_dir (lit "corpus") toy_corpus)))
    as Hnd.
  { apply (bool_decide_unpack _). vm_compute. exact I. }
  eexists _, _, _, _. split; [exact (toy_cache_laws (lit "corpus") _)|].
  split; [exact Hs|]. split; [exact Hnd|].
  split; [vm_compute; reflexivity|]. split; [reflexivity|].
  eapply (cache_round_trip AsciiRange.tables stub_cmudict (lit "corpus")
            true false false true toy_corpus _ [] _
            fresh_globals _ _ (toy_cache_laws (lit "corpus") _) Hs Hnd).
  vm_compute; reflexivity.
Defined.


(** ** The names of the cache files *)

Lemma replace_from_no_match (old new s : str) c0 old' :
  old = c0 :: old' → c0 ∉ s → replace_from old new 0 s = s.
Proof.
  intros -> Hs. induction s as [|c s IH]; [done|].
  apply not_elem_of_cons in Hs as [Hc Hs]. cbn [replace_from].
  rewrite bool_decide_eq_false_2.
  - by rewrite IH.
  - intros [k Hk]. simpl in Hk. congruence.
Qed.

Lemma replace_from_app (old new stem rest : str) c0 old' :
  old = c0 :: old' → c0 ∉ stem →
  replace_from old new 0 (stem ++ rest) = stem ++ replace_from old new 0 rest.
Proof.
  intros -> Hs. induction stem as [|c s IH]; [done|].
  apply not_elem_of_cons in Hs as [Hc Hs]. cbn [replace_from app].
  rewrite bool_decide_eq_false_2.
  - by rewrite IH.
  - intros [k Hk]. simpl in Hk. congruence.
Qed.

(** X21: a file name [stem.txt] whose stem has no dot ends in [.txt], and
    its cache file is [stem.pkl]; a file name without a dot is its own
    cache name.  (Every occurrence of [.txt] in a name is replaced, so that
    [a.txt.txt] and [a.pkl.txt] share the cache file [a.pkl.pkl].) *)
Theorem cache_name_of_txt (stem : str) :
  46%N ∉ stem →
  endswith (lit ".txt") (stem ++ lit ".txt") = true ∧
  cache_name (stem ++ lit ".txt") = stem ++ lit ".pkl" ∧
  cache_name stem = stem ∧
  cache_name (lit "a.txt.txt") = cache_name (lit "a.pkl.txt").
Proof.
  intros Hs. split_and!.
  - apply bool_decide_eq_true. by exists stem.
  - unfold cache_name, str_replace. change (lit ".txt") with (46%N :: lit "txt").
    by rewrite (replace_from_app _ _ stem _ 46%N (lit "txt")).
  - unfold cache_name, str_replace. change (lit ".txt") with (46%N :: lit "txt").
    by apply (replace_from_no_match _ _ stem 46%N (lit "txt")).
  - reflexivity.
Qed.

Lemma cache_name_of_txt_witness :
  (46%N ∉ lit "notes") ∧
  endswith (lit ".txt") (lit "notes" ++ lit ".txt") = true ∧
  cache_name (lit "notes" ++ lit ".txt") = lit "notes" ++ lit ".pkl" ∧
  cache_name (lit "notes") = lit "notes" ∧
  cache_name (lit "a.txt.txt") = cache_name (lit "a.pkl.txt").
Proof.
  assert (46%N ∉ lit "notes") as Hs.
  { apply (bool_decide_unpack _). vm_compute. exact I. }
  split; [exact Hs|]. exact (cache_name_of_txt (lit "notes") Hs).
Defined.
